(** * The snmalloc chunk map: classification of addresses by superslab granule

    A shallow embedding of [DefaultChunkMap] (mem/chunkmap.h), of the
    capability realization [PALCHERIBSD::PalChunkMap] (pal/pal_cheribsd.h), of
    the tag enumeration [ChunkMapSuperslabKind] (mem/chunkmap_consts.h) and of
    the pointer helpers of ds/address.h, followed by the properties of the
    redirect slide, of slab registration and of pointer rederivation. *)

From Stdlib Require Import ZArith Lia Bool.
From stdpp Require Import base option list list_numbers gmap fin_maps.

Local Open Scope Z_scope.

(** ** Machine integers *)

(** [size_t], [uintptr_t] and [address_t] are 64-bit unsigned integers: a value
    is a [Z] and every arithmetic result is reduced by [wrap64]. *)
Definition BITS : Z := 64.
Definition wrap64 (x : Z) : Z := x mod 2 ^ BITS.

(** [static_cast<uint8_t>(x)]. *)
Definition uint8 (x : Z) : Z := x mod 256.

(** ** mem/chunkmap_consts.h *)

Inductive ChunkMapSuperslabKind : Set :=
| CMNotOurs
| CMSuperslab
| CMMediumslab.

Definition kind_value (k : ChunkMapSuperslabKind) : Z :=
  match k with
  | CMNotOurs => 0
  | CMSuperslab => 1
  | CMMediumslab => 2
  end.

Coercion kind_value : ChunkMapSuperslabKind >-> Z.

(** ** ds/bits.h *)

(** Modelled from the spec: [bits::next_pow2_bits] and [bits::next_pow2] live in
    ds/bits.h, which is not among the sources.  The spec names them
    [log2(next_pow2(S))] and [next_pow2(S)]: the exponent of the least power of
    two that is no smaller than [S], and that power. *)
Definition next_pow2_bits (x : Z) : Z := Z.log2_up x.
Definition next_pow2 (x : Z) : Z := 2 ^ next_pow2_bits x.

(** Modelled from the spec: [bits::align_down(value, alignment)], also of
    ds/bits.h, rounds down to a multiple of a power-of-two [alignment] by
    clearing the low bits. *)
Definition align_down (value alignment : Z) : Z :=
  Z.land value (Z.lnot (alignment - 1)).

(** ** ds/address.h *)

(** A pointer is an address together with the authority it carries (on CHERI
    the bounds and permissions of the capability; on ordinary hardware nothing
    depends on it).  Address arithmetic never changes the authority. *)
Record ptr : Set := mk_ptr { ptr_auth : N; ptr_addr : Z }.

#[global] Instance ptr_eq_dec : EqDecision ptr.
Proof. solve_decision. Defined.

Definition NULL : ptr := mk_ptr 0%N 0.

Definition pointer_offset (base : ptr) (diff : Z) : ptr :=
  mk_ptr (ptr_auth base) (wrap64 (ptr_addr base + diff)).

Definition address_cast (p : ptr) : Z := ptr_addr p.

Definition pointer_align_down (granule : Z) (p : ptr) : ptr :=
  mk_ptr (ptr_auth p) (align_down (ptr_addr p) granule).

(** Modelled from the spec: [pointer_diff(base, cursor)] is used by
    [PalChunkMap::getp] but is not defined in the ds/address.h at hand; it is the
    byte distance from [base] up to [cursor], as a [size_t]. *)
Definition pointer_diff (base cursor : ptr) : Z :=
  wrap64 (address_cast cursor - address_cast base).

(** ** mem/pagemap.h *)

(** Modelled from the spec: the pagemap storage backend (mem/pagemap.h is not
    among the sources).  Its contract is [get], [set] and [set_range], all
    addressed at granule resolution: the low [SHIFT] bits of the address are
    ignored, a cell never written reads as the default value of the cell type,
    and [set_range] writes one value to a run of consecutive cells. *)
Section Pagemap.
Context {T : Type}.
Variable default_value : T.
Variable SHIFT : Z.

Definition pm_index (p : Z) : Z := Z.shiftr p SHIFT.

Definition pm_get (m : gmap Z T) (p : Z) : T :=
  default default_value (m !! pm_index p).

Definition pm_set (m : gmap Z T) (p : Z) (x : T) : gmap Z T :=
  <[pm_index p := x]> m.

Definition pm_set_range (m : gmap Z T) (p : Z) (x : T) (length : Z) : gmap Z T :=
  foldr (fun j acc => <[j := x]> acc) m (seqZ (pm_index p) length).
End Pagemap.

(** ** The redirect slide *)

(** The loop of [set_large_size] reads the same in both chunk maps; only the
    cell stored for iteration [i] differs ([cell i] below).

    [for (size_t i = 0; i < bound; i++) {
       size_t run = 1ULL << i;
       pagemap().set_range(ss, cell i, run);
       ss = ss + SUPERSLAB_SIZE * run; }]

    [slide_loop] tests the guard before every iteration and answers [None] when
    its fuel runs out before the guard fails.  All of [i], [run] and [ss] are
    64-bit values.  A shift by 64 or more, which C++ leaves undefined, yields 0
    here; it is reached only after the loop bound has wrapped around. *)
Section RedirectSlide.
Context {T : Type}.

(** [SUPERSLAB_BITS] is a constant of mem/allocconfig.h, which is not among
    the sources: it is a parameter of everything below. *)
Variable SUPERSLAB_BITS : Z.
Variable cell : Z -> T.

(** Modelled from the spec: [SUPERSLAB_SIZE], also of mem/allocconfig.h, is the
    size of the granule, [2^SUPERSLAB_BITS] bytes. *)
Definition SUPERSLAB_SIZE : Z := Z.shiftl 1 SUPERSLAB_BITS.

Record slide_state : Type :=
  mk_slide { sl_i : Z; sl_ss : Z; sl_pm : gmap Z T }.

Definition slide_body (st : slide_state) : slide_state :=
  let i := sl_i st in
  let run := wrap64 (Z.shiftl 1 i) in
  {| sl_i := wrap64 (i + 1);
     sl_ss := wrap64 (sl_ss st + wrap64 (SUPERSLAB_SIZE * run));
     sl_pm := pm_set_range SUPERSLAB_BITS (sl_pm st) (sl_ss st) (cell i) run |}.

Fixpoint slide_loop (fuel : nat) (bound : Z) (st : slide_state)
  : option slide_state :=
  match fuel with
  | O => if sl_i st <? bound then None else Some st
  | S fuel' =>
      if sl_i st <? bound then slide_loop fuel' bound (slide_body st)
      else Some st
  end.

(** The loop bound [size_bits - SUPERSLAB_BITS], a [size_t] difference. *)
Definition slide_bound (size : Z) : Z :=
  wrap64 (next_pow2_bits size - SUPERSLAB_BITS).

(** The whole loop, started at [i = 0] with cursor [ss]; a [for] loop that
    counts from zero needs [bound] iterations, so that much fuel is given and
    the [None] branch is never taken ([redirect_slide_iter] below). *)
Definition redirect_slide (bound ss : Z) (pm : gmap Z T) : gmap Z T :=
  match slide_loop (Z.to_nat bound) bound (mk_slide 0 ss pm) with
  | Some st => sl_pm st
  | None => pm
  end.
End RedirectSlide.

Arguments mk_slide {T} _ _ _.
Arguments sl_i {T} _.
Arguments sl_ss {T} _.
Arguments sl_pm {T} _.

(** ** mem/chunkmap.h: DefaultChunkMap *)

(** An [assert(c)] aborts the process when [c] is false, unless the build
    defines [NDEBUG], which removes the check.  Operations that assert answer
    [None] for the abort. *)
Definition assert_holds (NDEBUG c : bool) : bool := NDEBUG || c.

Module DefaultChunkMap.
Section Config.
Variable NDEBUG : bool.
Variable SUPERSLAB_BITS : Z.

(** One classification byte per cell, zero by default. *)
Definition get (pm : gmap Z Z) (p : Z) : Z := pm_get 0 SUPERSLAB_BITS pm p.

Definition get_ptr (pm : gmap Z Z) (p : ptr) : Z := get pm (address_cast p).

(** [getp<offset>]: the [static_assert(offset)] rejects the instantiation
    with [offset = false], for which there is no function. *)
Definition getp (offset : bool) (p : ptr) : option ptr :=
  if offset then Some p else None.

Definition set (pm : gmap Z Z) (p : ptr) (x : Z) : gmap Z Z :=
  pm_set SUPERSLAB_BITS pm (address_cast p) x.

Definition set_slab_Superslab (pm : gmap Z Z) (slab : ptr) : gmap Z Z :=
  set pm slab CMSuperslab.

Definition set_slab_Mediumslab (pm : gmap Z Z) (slab : ptr) : gmap Z Z :=
  set pm slab CMMediumslab.

Definition clear_slab_Superslab (pm : gmap Z Z) (slab : ptr)
  : option (gmap Z Z) :=
  if assert_holds NDEBUG (get_ptr pm slab =? CMSuperslab)
  then Some (set pm slab CMNotOurs) else None.

Definition clear_slab_Mediumslab (pm : gmap Z Z) (slab : ptr)
  : option (gmap Z Z) :=
  if assert_holds NDEBUG (get_ptr pm slab =? CMMediumslab)
  then Some (set pm slab CMNotOurs) else None.

(** The cell written by iteration [i] of the redirect slide. *)
Definition redirect_cell (i : Z) : Z := uint8 (wrap64 (64 + i + SUPERSLAB_BITS)).

Definition set_large_size (pm : gmap Z Z) (p : ptr) (size : Z) : gmap Z Z :=
  let size_bits := next_pow2_bits size in
  let pm1 := set pm p (uint8 size_bits) in
  let ss := wrap64 (address_cast p + SUPERSLAB_SIZE SUPERSLAB_BITS) in
  redirect_slide SUPERSLAB_BITS redirect_cell
    (slide_bound SUPERSLAB_BITS size) ss pm1.

Definition clear_large_size (pm : gmap Z Z) (vp : ptr) (size : Z)
  : option (gmap Z Z) :=
  let p := address_cast vp in
  let rounded_size := wrap64 (next_pow2 size) in
  if assert_holds NDEBUG (get pm p =? next_pow2_bits size) then
    let count := Z.shiftr rounded_size SUPERSLAB_BITS in
    Some (pm_set_range SUPERSLAB_BITS pm p CMNotOurs count)
  else None.
End Config.
End DefaultChunkMap.

(** [static_assert(SUPERSLAB_BITS > CMMediumslab, ...)]. *)
Definition static_assert_disjoint (SUPERSLAB_BITS : Z) : Prop :=
  CMMediumslab < SUPERSLAB_BITS.

(** The ranges of cell values described with [ChunkMapSuperslabKind]: the
    [log2(size)] stored at the head of a large allocation, and the entries
    within a large allocation. *)
Definition is_size_code (SUPERSLAB_BITS c : Z) : Prop := SUPERSLAB_BITS ≤ c < 64.
Definition is_redirect_code (c : Z) : Prop := 64 ≤ c < 128.

(** ** pal/pal_cheribsd.h: PALCHERIBSD::PalChunkMap *)

Module PalChunkMap.
Section Config.
Variable NDEBUG : bool.
Variable SUPERSLAB_BITS : Z.

Definition PAGEMAP_PTR_ALIGN : Z := 0x100.

(** One capability per cell, [NULL] by default. *)
Definition get (pm : gmap Z ptr) (p : Z) : Z :=
  uint8 (address_cast (pm_get NULL SUPERSLAB_BITS pm p)).

Definition getp (offset : bool) (pm : gmap Z ptr) (p : ptr) : ptr :=
  let pmp :=
    pointer_align_down PAGEMAP_PTR_ALIGN
      (pm_get NULL SUPERSLAB_BITS pm (address_cast p)) in
  if offset then pointer_offset pmp (pointer_diff pmp p) else pmp.

Definition set (pm : gmap Z ptr) (p x : ptr) : gmap Z ptr :=
  pm_set SUPERSLAB_BITS pm (address_cast p) x.

(** [pointer_align_down<SUPERSLAB_SIZE>(slab) == slab]. *)
Definition slab_aligned (slab : ptr) : bool :=
  bool_decide (pointer_align_down (SUPERSLAB_SIZE SUPERSLAB_BITS) slab = slab).

Definition set_slab_Superslab (pm : gmap Z ptr) (slab : ptr)
  : option (gmap Z ptr) :=
  if assert_holds NDEBUG (slab_aligned slab)
  then Some (set pm slab (pointer_offset slab CMSuperslab)) else None.

Definition clear_slab_Superslab (pm : gmap Z ptr) (slab : ptr)
  : option (gmap Z ptr) :=
  if assert_holds NDEBUG (slab_aligned slab)
  then Some (set pm slab NULL) else None.

Definition set_slab_Mediumslab (pm : gmap Z ptr) (slab : ptr)
  : option (gmap Z ptr) :=
  if assert_holds NDEBUG (slab_aligned slab)
  then Some (set pm slab (pointer_offset slab CMMediumslab)) else None.

Definition clear_slab_Mediumslab (pm : gmap Z ptr) (slab : ptr)
  : option (gmap Z ptr) :=
  if assert_holds NDEBUG (slab_aligned slab)
  then Some (set pm slab NULL) else None.

(** The cell written by iteration [i] of the redirect slide. *)
Definition redirect_cell (vp : ptr) (i : Z) : ptr :=
  pointer_offset vp (wrap64 (64 + i + SUPERSLAB_BITS)).

Definition set_large_size (pm : gmap Z ptr) (vp : ptr) (size : Z)
  : gmap Z ptr :=
  let size_bits := next_pow2_bits size in
  let pm1 := set pm vp (pointer_offset vp size_bits) in
  let ss := pointer_offset vp (SUPERSLAB_SIZE SUPERSLAB_BITS) in
  redirect_slide SUPERSLAB_BITS (redirect_cell vp)
    (slide_bound SUPERSLAB_BITS size) (address_cast ss) pm1.

Definition clear_large_size (pm : gmap Z ptr) (vp : ptr) (size : Z)
  : option (gmap Z ptr) :=
  let p := address_cast vp in
  let rounded_size := wrap64 (next_pow2 size) in
  if assert_holds NDEBUG (get pm p =? next_pow2_bits size) then
    let count := Z.shiftr rounded_size SUPERSLAB_BITS in
    Some (pm_set_range SUPERSLAB_BITS pm p NULL count)
  else None.
End Config.
End PalChunkMap.

(** ** Sequences of chunk map operations *)

Inductive chunkmap_op : Set :=
| OpSetSuperslab (slab : ptr)
| OpSetMediumslab (slab : ptr)
| OpClearSuperslab (slab : ptr)
| OpClearMediumslab (slab : ptr)
| OpSetLargeSize (p : ptr) (size : Z)
| OpClearLargeSize (p : ptr) (size : Z).

Definition op_pointer (op : chunkmap_op) : ptr :=
  match op with
  | OpSetSuperslab slab | OpSetMediumslab slab
  | OpClearSuperslab slab | OpClearMediumslab slab => slab
  | OpSetLargeSize p _ | OpClearLargeSize p _ => p
  end.

Definition default_step (NDEBUG : bool) (SUPERSLAB_BITS : Z)
    (pm : gmap Z Z) (op : chunkmap_op) : option (gmap Z Z) :=
  match op with
  | OpSetSuperslab slab =>
      Some (DefaultChunkMap.set_slab_Superslab SUPERSLAB_BITS pm slab)
  | OpSetMediumslab slab =>
      Some (DefaultChunkMap.set_slab_Mediumslab SUPERSLAB_BITS pm slab)
  | OpClearSuperslab slab =>
      DefaultChunkMap.clear_slab_Superslab NDEBUG SUPERSLAB_BITS pm slab
  | OpClearMediumslab slab =>
      DefaultChunkMap.clear_slab_Mediumslab NDEBUG SUPERSLAB_BITS pm slab
  | OpSetLargeSize p size =>
      Some (DefaultChunkMap.set_large_size SUPERSLAB_BITS pm p size)
  | OpClearLargeSize p size =>
      DefaultChunkMap.clear_large_size NDEBUG SUPERSLAB_BITS pm p size
  end.

Definition pal_step (NDEBUG : bool) (SUPERSLAB_BITS : Z)
    (pm : gmap Z ptr) (op : chunkmap_op) : option (gmap Z ptr) :=
  match op with
  | OpSetSuperslab slab =>
      PalChunkMap.set_slab_Superslab NDEBUG SUPERSLAB_BITS pm slab
  | OpSetMediumslab slab =>
      PalChunkMap.set_slab_Mediumslab NDEBUG SUPERSLAB_BITS pm slab
  | OpClearSuperslab slab =>
      PalChunkMap.clear_slab_Superslab NDEBUG SUPERSLAB_BITS pm slab
  | OpClearMediumslab slab =>
      PalChunkMap.clear_slab_Mediumslab NDEBUG SUPERSLAB_BITS pm slab
  | OpSetLargeSize p size =>
      Some (PalChunkMap.set_large_size SUPERSLAB_BITS pm p size)
  | OpClearLargeSize p size =>
      PalChunkMap.clear_large_size NDEBUG SUPERSLAB_BITS pm p size
  end.

(** Runs the operations in order; an aborted operation aborts the run. *)
Fixpoint run_ops {M : Type} (step : M → chunkmap_op → option M)
    (ops : list chunkmap_op) (m : M) : option M :=
  match ops with
  | [] => Some m
  | op :: ops' =>
      match step m op with
      | Some m' => run_ops step ops' m'
      | None => None
      end
  end.

(** The pointer handed to a registration is aligned to [PAGEMAP_PTR_ALIGN], so
    that the low eight bits of its address are free for the classification. *)
Definition op_aligned (op : chunkmap_op) : Prop :=
  match op with
  | OpSetSuperslab _ | OpSetMediumslab _ | OpSetLargeSize _ _ =>
      address_cast (op_pointer op) mod PalChunkMap.PAGEMAP_PTR_ALIGN = 0
  | OpClearSuperslab _ | OpClearMediumslab _ | OpClearLargeSize _ _ => True
  end.

(** Cell by cell, the byte of the plain table is the low byte of the address of
    the capability in the capability table. *)
Definition cells_agree (pm : gmap Z Z) (cm : gmap Z ptr) : Prop :=
  ∀ j : Z, default 0 (pm !! j) = uint8 (address_cast (default NULL (cm !! j))).

(** ** Large allocations *)

(** The region of a large allocation, rounded up to a power of two, lies inside
    the 64-bit address space. *)
Definition region_in_address_space (p : ptr) (size : Z) : Prop :=
  0 ≤ address_cast p ∧ address_cast p + next_pow2 size ≤ 2 ^ BITS.

(** A pointer whose address is a 64-bit value. *)
Definition valid_address (p : ptr) : Prop := 0 ≤ address_cast p < 2 ^ BITS.

(** Registration of a large allocation in the words of the specification: write
    [b = log2(next_pow2(S))] to the head cell; then, from the cell after the
    head, for [i = 0, 1, 2, ...] while [i < b - SUPERSLAB_BITS], write the code
    [64 + i + SUPERSLAB_BITS] to a run of [2^i] consecutive cells and advance
    the cursor by [2^i] cells. *)
Definition write_run (m : gmap Z Z) (cursor x len : Z) : gmap Z Z :=
  foldr (fun j acc => <[j := x]> acc) m (seqZ cursor len).

Definition register_large_step (SUPERSLAB_BITS : Z)
    (acc : Z * gmap Z Z) (i : Z) : Z * gmap Z Z :=
  (acc.1 + 2 ^ i, write_run acc.2 acc.1 (64 + i + SUPERSLAB_BITS) (2 ^ i)).

Definition register_large_spec (SUPERSLAB_BITS : Z)
    (pm : gmap Z Z) (p : Z) (S : Z) : gmap Z Z :=
  let b := Z.log2 (next_pow2 S) in
  let head := pm_index SUPERSLAB_BITS p in
  (foldl (register_large_step SUPERSLAB_BITS)
     (head + 1, <[head := b]> pm) (seqZ 0 (b - SUPERSLAB_BITS))).2.

(** A pointer to the start of a granule. *)
Definition granule_aligned (SUPERSLAB_BITS : Z) (p : ptr) : Prop :=
  address_cast p mod SUPERSLAB_SIZE SUPERSLAB_BITS = 0.

(** ** The concrete scenario of the specification *)

(** Granule of [2^21] bytes, a region at [A = 0x1000000], a large allocation of
    [2^24] bytes. *)
Definition scenario_BITS : Z := 21.
Definition scenario_A : ptr := mk_ptr 0%N 0x1000000.
Definition scenario_S : Z := 2 ^ 24.

(** ** ds/address.h, continued *)

(** [pointer_cast<T>(address)]: a pointer made from an address alone carries
    no authority. *)
Definition pointer_cast (address : Z) : ptr := mk_ptr 0%N address.

(** [is_aligned_block<alignment>(p, size)], with its assertion that
    [alignment] is a power of two. *)
Definition is_aligned_block (NDEBUG : bool) (alignment : Z) (p : ptr) (size : Z)
  : option bool :=
  if assert_holds NDEBUG (next_pow2 alignment =? alignment)
  then Some (Z.land (Z.lor (address_cast p) size) (alignment - 1) =? 0)
  else None.

(** Modelled from the spec: [bits::align_up(value, alignment)] of ds/bits.h
    rounds up to a multiple of a power-of-two [alignment]: it adds
    [alignment - 1], as a [size_t], and clears the low bits. *)
Definition align_up (value alignment : Z) : Z :=
  Z.land (wrap64 (value + (alignment - 1))) (Z.lnot (alignment - 1)).

Definition pointer_align_up (granule : Z) (p : ptr) : ptr :=
  mk_ptr (ptr_auth p) (align_up (ptr_addr p) granule).

(** ** override/malloc.cc *)

(** Values of <errno.h>. *)
Definition ENOENT : Z := 2.
Definition ENOMEM : Z := 12.
Definition EINVAL : Z := 22.

(** [size_t(-1)]. *)
Definition SIZE_MAX : Z := 2 ^ BITS - 1.

(** [size & (~size + 1)] on a [size_t]. *)
Definition lowest_set_bit (size : Z) : Z :=
  Z.land size (wrap64 (wrap64 (Z.lnot size) + 1)).

(** The allocator behind [ThreadAlloc], the size class tables, [bits::umul]
    and the constants [OS_PAGE_SIZE] and [sizeof(uintptr_t)] are not among the
    sources: the functions below take them as parameters.  [process] is the
    state an allocation may change, [set_errno] assigns [errno] in it, and
    [alloc size] is [ThreadAlloc::get_noncachable()->alloc(size)]. *)
Section MallocOverride.
Variable process : Type.
Variable set_errno : Z → process → process.
Variable alloc : Z → process → ptr * process.
Variable slow_alloc_zero : Z → process → ptr * process.
Variable umul : Z → Z → Z * bool.
Variable NDEBUG : bool.
Variable SUPERSLAB_BITS : Z.
Variable OS_PAGE_SIZE : Z.
Variable SIZEOF_UINTPTR : Z.
Variable NUM_SIZECLASSES : Z.
Variable size_to_sizeclass : Z → Z.
Variable sizeclass_to_size : Z → Z.

Definition malloc (size : Z) (pr : process) : ptr * process := alloc size pr.

(** [aligned_alloc]: [assert((size % alignment) == 0)], then [malloc(size)]. *)
Definition aligned_alloc (alignment size : Z) (pr : process)
  : option (ptr * process) :=
  if assert_holds NDEBUG (size mod alignment =? 0)
  then Some (malloc size pr) else None.

(** The loop of [memalign] over the size classes [sc], [sc + 1], ..., up to
    [NUM_SIZECLASSES - 1], one unit of fuel for each; when they are used up
    the loop is left and [malloc(SUPERSLAB_SIZE)] is returned. *)
Fixpoint memalign_scan (fuel : nat) (sc alignment : Z) (pr : process)
  : option (ptr * process) :=
  match fuel with
  | O => Some (malloc (SUPERSLAB_SIZE SUPERSLAB_BITS) pr)
  | S fuel' =>
      let size := sizeclass_to_size sc in
      if alignment <=? lowest_set_bit size
      then aligned_alloc alignment size pr
      else memalign_scan fuel' (sc + 1) alignment pr
  end.

Definition memalign (alignment size : Z) (pr : process)
  : option (ptr * process) :=
  if (alignment =? 0) || (alignment =? SIZE_MAX)
     || (SUPERSLAB_SIZE SUPERSLAB_BITS <? alignment)
  then Some (NULL, set_errno EINVAL pr)
  else if wrap64 (size + alignment) <? size
  then Some (NULL, set_errno ENOMEM pr)
  else
    let size := Z.max size alignment in
    let sc := size_to_sizeclass size in
    if NUM_SIZECLASSES <=? sc then Some (malloc size pr)
    else memalign_scan (Z.to_nat (NUM_SIZECLASSES - sc)) sc alignment pr.

(** [posix_memalign]: [memptr] is the pointer held by [*memptr] before the
    call; the result is the returned code, the pointer held by [*memptr]
    afterwards and the state. *)
Definition posix_memalign (memptr : ptr) (alignment size : Z) (pr : process)
  : option (Z * ptr * process) :=
  if negb (alignment mod SIZEOF_UINTPTR =? 0)
     || negb (Z.land alignment (wrap64 (alignment - 1)) =? 0)
     || (alignment =? 0)
  then Some (EINVAL, memptr, pr)
  else
    match memalign alignment size pr with
    | None => None
    | Some (p, pr') =>
        if address_cast p =? address_cast NULL
        then Some (ENOMEM, memptr, pr')
        else Some (0, p, pr')
    end.

Definition valloc (size : Z) (pr : process) : option (ptr * process) :=
  memalign OS_PAGE_SIZE size pr.

(** [(size + OS_PAGE_SIZE - 1) & ~(OS_PAGE_SIZE - 1)] on [size_t]. *)
Definition pvalloc_size (size : Z) : Z :=
  Z.land (wrap64 (wrap64 (size + OS_PAGE_SIZE) - 1))
         (wrap64 (Z.lnot (wrap64 (OS_PAGE_SIZE - 1)))).

Definition pvalloc (size : Z) (pr : process) : option (ptr * process) :=
  if size =? SIZE_MAX then Some (NULL, set_errno ENOMEM pr)
  else memalign OS_PAGE_SIZE (pvalloc_size size) pr.

(** [__je_bootstrap_calloc]: the product of [bits::umul], then
    [sz = ((sz - 1) >> (bits::BITS - 1)) + sz]. *)
Definition bootstrap_calloc_size (sz : Z) : Z :=
  wrap64 (Z.shiftr (wrap64 (sz - 1)) (BITS - 1) + sz).

Definition __je_bootstrap_calloc (nmemb size : Z) (pr : process)
  : ptr * process :=
  let '(sz, overflow) := umul size nmemb in
  if overflow then (NULL, set_errno ENOMEM pr)
  else slow_alloc_zero (bootstrap_calloc_size sz) pr.
End MallocOverride.

(** An instance of the parameters for the examples: a bump allocator whose
    state is the next free address and [errno], with power-of-two size
    classes. *)
Definition bump_set_errno (e : Z) (pr : Z * Z) : Z * Z := (pr.1, e).
Definition bump_alloc (size : Z) (pr : Z * Z) : ptr * (Z * Z) :=
  (mk_ptr 0%N pr.1, (pr.1 + size, pr.2)).
Definition pow2_size_to_sizeclass (size : Z) : Z := Z.log2_up size.
Definition pow2_sizeclass_to_size (sc : Z) : Z := wrap64 (2 ^ sc).
Definition exact_umul (x y : Z) : Z * bool := (wrap64 (x * y), 2 ^ BITS <=? x * y).

(** * Properties *)

(** ** Machine arithmetic *)

Lemma wrap64_small (x : Z) : 0 ≤ x < 2 ^ BITS → wrap64 x = x.
Proof. intros H. unfold wrap64. by apply Z.mod_small. Qed.

Lemma wrap64_range (x : Z) : 0 ≤ wrap64 x < 2 ^ BITS.
Proof. unfold wrap64, BITS. apply Z.mod_pos_bound. lia. Qed.

Lemma uint8_wrap64 (x : Z) : uint8 (wrap64 x) = uint8 x.
Proof.
  unfold uint8, wrap64, BITS.
  apply Z.mod_mod_divide. exists (2 ^ 56). reflexivity.
Qed.

Lemma uint8_small (x : Z) : 0 ≤ x < 256 → uint8 x = x.
Proof. intros H. unfold uint8. by apply Z.mod_small. Qed.

Lemma uint8_add_aligned (a x : Z) : a mod 256 = 0 → uint8 (a + x) = uint8 x.
Proof.
  intros Ha. unfold uint8.
  rewrite Z.add_mod, Ha by lia. simpl. apply Z.mod_mod. lia.
Qed.

Lemma SUPERSLAB_SIZE_pow2 (SB : Z) : SUPERSLAB_SIZE SB = 2 ^ SB.
Proof. unfold SUPERSLAB_SIZE. apply Z.shiftl_1_l. Qed.

Lemma pm_index_div (SB p : Z) : 0 ≤ SB → pm_index SB p = p / 2 ^ SB.
Proof. intros H. unfold pm_index. by apply Z.shiftr_div_pow2. Qed.

Lemma pm_index_offset (SB p k : Z) :
  0 ≤ SB → pm_index SB (p + k * SUPERSLAB_SIZE SB) = pm_index SB p + k.
Proof.
  intros H. rewrite !pm_index_div, SUPERSLAB_SIZE_pow2 by done.
  apply Z.div_add. apply Z.pow_nonzero; lia.
Qed.

Lemma next_pow2_bits_nonneg (size : Z) : 0 ≤ next_pow2_bits size.
Proof. apply Z.log2_up_nonneg. Qed.

(** ** The pagemap contract *)

Lemma lookup_insert_all {T} (x : T) (m : gmap Z T) (l : list Z) (j : Z) :
  foldr (fun j acc => <[j := x]> acc) m l !! j
  = if decide (j ∈ l) then Some x else m !! j.
Proof.
  induction l as [|a l IH]; cbn [foldr].
  - rewrite decide_False; [done | apply not_elem_of_nil].
  - rewrite lookup_insert. destruct (decide (a = j)) as [->|Hne].
    + rewrite decide_True; [done | left].
    + rewrite IH. destruct (decide (j ∈ l)) as [Hl|Hl].
      * rewrite decide_True; [done | by right].
      * rewrite decide_False; [done |].
        intros Hin. apply elem_of_cons in Hin as [->|Hin]; tauto.
Qed.

Lemma lookup_pm_set_range {T} (SB : Z) (m : gmap Z T) (p : Z) (x : T) (n j : Z) :
  pm_set_range SB m p x n !! j
  = if decide (pm_index SB p ≤ j < pm_index SB p + n) then Some x else m !! j.
Proof.
  unfold pm_set_range. rewrite lookup_insert_all.
  destruct (decide (j ∈ seqZ (pm_index SB p) n)) as [Hin|Hin];
    rewrite elem_of_seqZ in Hin.
  - by rewrite decide_True.
  - by rewrite decide_False.
Qed.

Lemma lookup_pm_set {T} (SB : Z) (m : gmap Z T) (p : Z) (x : T) (j : Z) :
  pm_set SB m p x !! j = if decide (pm_index SB p = j) then Some x else m !! j.
Proof. unfold pm_set. apply lookup_insert. Qed.

(** ** The loop of the redirect slide *)

Section SlideLoop.
Context {T : Type}.
Variable SB : Z.
Variable cell : Z → T.

(** The loop runs its body exactly [bound - i] more times: it answers as soon
    as it has fuel for that many iterations and never with less. *)
Lemma slide_loop_iterations (bound : Z) (fuel : nat) (st : slide_state) :
  0 ≤ sl_i st ≤ bound → bound < 2 ^ BITS →
  slide_loop SB cell fuel bound st
  = if decide (bound - sl_i st ≤ Z.of_nat fuel)
    then Some (Nat.iter (Z.to_nat (bound - sl_i st)) (slide_body SB cell) st)
    else None.
Proof.
  revert st. induction fuel as [|fuel IH]; intros st Hi Hb.
  - simpl. destruct (Z.ltb_spec (sl_i st) bound) as [Hlt|Hge].
    + rewrite decide_False by lia. done.
    + rewrite decide_True by lia.
      replace (bound - sl_i st) with 0 by lia. done.
  - simpl. destruct (Z.ltb_spec (sl_i st) bound) as [Hlt|Hge].
    + assert (Hnext : sl_i (slide_body SB cell st) = sl_i st + 1).
      { simpl. apply wrap64_small. lia. }
      rewrite IH by lia. rewrite Hnext.
      destruct (decide (bound - (sl_i st + 1) ≤ Z.of_nat fuel)) as [Hf|Hf].
      * rewrite decide_True by lia. f_equal.
        replace (Z.to_nat (bound - sl_i st))
          with (S (Z.to_nat (bound - (sl_i st + 1)))) by lia.
        by rewrite Nat.iter_succ_r.
      * rewrite decide_False by lia. done.
    + rewrite decide_True by lia.
      replace (bound - sl_i st) with 0 by lia. done.
Qed.

Lemma redirect_slide_iter (bound ss : Z) (pm : gmap Z T) :
  0 ≤ bound < 2 ^ BITS →
  redirect_slide SB cell bound ss pm
  = sl_pm (Nat.iter (Z.to_nat bound) (slide_body SB cell) (mk_slide 0 ss pm)).
Proof.
  intros Hb. unfold redirect_slide.
  rewrite slide_loop_iterations by (simpl; lia). simpl.
  rewrite decide_True by lia. by rewrite Z.sub_0_r.
Qed.

(** The cells after the loop has run from iteration [i] on, for a region that
    starts at address [p0] and ends inside the address space. *)
Variable p0 : Z.
Variable n : Z.
Hypothesis SB_nonneg : 0 ≤ SB.
Hypothesis p0_nonneg : 0 ≤ p0.
Hypothesis region_fits : p0 + SUPERSLAB_SIZE SB * 2 ^ n ≤ 2 ^ BITS.

Lemma slide_cursor_small (i : Z) :
  0 ≤ i < n → 0 ≤ p0 + SUPERSLAB_SIZE SB * 2 ^ i < 2 ^ BITS.
Proof.
  intros Hi. rewrite SUPERSLAB_SIZE_pow2 in *.
  assert (0 < 2 ^ SB) by (apply Z.pow_pos_nonneg; lia).
  assert (0 < 2 ^ i) by (apply Z.pow_pos_nonneg; lia).
  assert (2 ^ i < 2 ^ n) by (apply Z.pow_lt_mono_r; lia).
  nia.
Qed.

Lemma slide_run_small (i : Z) : 0 ≤ i < n → wrap64 (Z.shiftl 1 i) = 2 ^ i.
Proof.
  intros Hi. rewrite Z.shiftl_1_l. apply wrap64_small.
  pose proof (slide_cursor_small i Hi) as Hc. rewrite SUPERSLAB_SIZE_pow2 in Hc.
  assert (0 < 2 ^ SB) by (apply Z.pow_pos_nonneg; lia).
  assert (0 < 2 ^ i) by (apply Z.pow_pos_nonneg; lia).
  nia.
Qed.

Lemma slide_body_step (i : Z) (m : gmap Z T) :
  0 ≤ i < n →
  slide_body SB cell (mk_slide i (wrap64 (p0 + SUPERSLAB_SIZE SB * 2 ^ i)) m)
  = mk_slide (i + 1) (wrap64 (p0 + SUPERSLAB_SIZE SB * 2 ^ (i + 1)))
      (pm_set_range SB m (p0 + SUPERSLAB_SIZE SB * 2 ^ i) (cell i) (2 ^ i)).
Proof.
  intros Hi. unfold slide_body. simpl.
  rewrite slide_run_small by done.
  pose proof (slide_cursor_small i Hi) as Hc.
  rewrite (wrap64_small (p0 + _)) by done.
  f_equal.
  - apply wrap64_small. pose proof (slide_run_small i Hi) as Hr.
    rewrite Z.shiftl_1_l in Hr. unfold BITS in *.
    assert (n ≤ 64); [|lia].
    destruct (Z.le_gt_cases n 64) as [|Hgt]; [done|exfalso].
    assert (2 ^ 64 < 2 ^ n) by (apply Z.pow_lt_mono_r; lia).
    rewrite SUPERSLAB_SIZE_pow2 in region_fits.
    assert (0 < 2 ^ SB) by (apply Z.pow_pos_nonneg; lia).
    nia.
  - unfold wrap64. rewrite Zplus_mod_idemp_r. f_equal.
    rewrite Z.pow_add_r by lia. lia.
Qed.

Lemma slide_iter_cells (k : nat) : ∀ (i : Z) (m : gmap Z T),
  0 ≤ i → i + Z.of_nat k ≤ n →
  let st := Nat.iter k (slide_body SB cell)
              (mk_slide i (wrap64 (p0 + SUPERSLAB_SIZE SB * 2 ^ i)) m) in
  sl_i st = i + Z.of_nat k ∧
  ∀ j, sl_pm st !! j
       = if decide (pm_index SB p0 + 2 ^ i ≤ j
                    < pm_index SB p0 + 2 ^ (i + Z.of_nat k))
         then Some (cell (Z.log2 (j - pm_index SB p0)))
         else m !! j.
Proof.
  induction k as [|k IH]; intros i m Hi Hk; cbv zeta.
  - cbn [Nat.iter nat_rect sl_i sl_pm]. split; [lia|]. intros j.
    rewrite Z.add_0_r. by rewrite decide_False by lia.
  - rewrite Nat.iter_succ_r.
    rewrite slide_body_step by lia.
    destruct (IH (i + 1) (pm_set_range SB m (p0 + SUPERSLAB_SIZE SB * 2 ^ i)
                            (cell i) (2 ^ i))) as [Hidx Hcells]; [lia|lia|].
    split; [lia|]. intros j. rewrite Hcells.
    replace (i + 1 + Z.of_nat k) with (i + Z.of_nat (S k)) by lia.
    rewrite lookup_pm_set_range.
    rewrite (Z.mul_comm (SUPERSLAB_SIZE SB)), pm_index_offset by done.
    assert (2 ^ (i + 1) = 2 * 2 ^ i) as Hp by (rewrite Z.pow_add_r; lia).
    assert (0 < 2 ^ i) by (apply Z.pow_pos_nonneg; lia).
    assert (2 ^ (i + 1) ≤ 2 ^ (i + Z.of_nat (S k)))
      by (apply Z.pow_le_mono_r; lia).
    repeat case_decide; try lia; try done.
    f_equal. f_equal. symmetry. apply Z.log2_unique; lia.
Qed.

Lemma redirect_slide_cells (m : gmap Z T) (j : Z) :
  0 ≤ n →
  redirect_slide SB cell n (wrap64 (p0 + SUPERSLAB_SIZE SB)) m !! j
  = if decide (pm_index SB p0 + 1 ≤ j < pm_index SB p0 + 2 ^ n)
    then Some (cell (Z.log2 (j - pm_index SB p0)))
    else m !! j.
Proof.
  intros Hn.
  assert (n ≤ 64) as Hn64.
  { destruct (Z.le_gt_cases n 64) as [|Hgt]; [done|exfalso].
    assert (2 ^ 64 < 2 ^ n) by (apply Z.pow_lt_mono_r; lia).
    rewrite SUPERSLAB_SIZE_pow2 in region_fits. unfold BITS in *.
    assert (0 < 2 ^ SB) by (apply Z.pow_pos_nonneg; lia).
    nia. }
  rewrite redirect_slide_iter by (unfold BITS; lia).
  pose proof (slide_iter_cells (Z.to_nat n) 0 m) as H.
  simpl in H. rewrite Z.mul_1_r in H.
  destruct H as [_ H]; [lia|lia|].
  rewrite H. rewrite Z2Nat.id by done. done.
Qed.
End SlideLoop.

(** ** Sizes of large allocations *)

Lemma pow2_le_inv (a b : Z) : 0 ≤ b → 2 ^ a ≤ 2 ^ b → a ≤ b.
Proof.
  intros Hb Hle. destruct (Z.le_gt_cases a b) as [|Hgt]; [done|exfalso].
  assert (2 ^ b < 2 ^ a) by (apply Z.pow_lt_mono_r; lia). lia.
Qed.

Lemma next_pow2_split (SB size : Z) :
  0 ≤ SB → SB ≤ next_pow2_bits size →
  next_pow2 size = SUPERSLAB_SIZE SB * 2 ^ (next_pow2_bits size - SB).
Proof.
  intros H0 Hle. unfold next_pow2. rewrite SUPERSLAB_SIZE_pow2.
  rewrite <- Z.pow_add_r by lia. f_equal. lia.
Qed.

Lemma region_bits_le (p : ptr) (size : Z) :
  region_in_address_space p size → next_pow2_bits size ≤ 64.
Proof.
  intros [Hp Hfit]. unfold next_pow2, BITS in *.
  apply pow2_le_inv; [lia|]. lia.
Qed.

Lemma next_pow2_bits_lt (size : Z) :
  next_pow2 size < 2 ^ BITS → next_pow2_bits size < 64.
Proof.
  unfold next_pow2, BITS. intros Hlt.
  destruct (Z.lt_ge_cases (next_pow2_bits size) 64) as [|Hge]; [done|exfalso].
  assert (2 ^ 64 ≤ 2 ^ next_pow2_bits size) by (apply Z.pow_le_mono_r; lia). lia.
Qed.

Lemma granule_le_bits (SB size : Z) :
  0 ≤ SB → SUPERSLAB_SIZE SB ≤ size → SB ≤ next_pow2_bits size.
Proof.
  intros H0 Hle. rewrite SUPERSLAB_SIZE_pow2 in Hle. unfold next_pow2_bits.
  rewrite <- (Z.log2_up_pow2 SB) by done. by apply Z.log2_up_le_mono.
Qed.

Lemma slide_bound_small (SB size : Z) (p : ptr) :
  0 ≤ SB → SB ≤ next_pow2_bits size → region_in_address_space p size →
  slide_bound SB size = next_pow2_bits size - SB.
Proof.
  intros H0 Hle Hfit. apply region_bits_le in Hfit.
  unfold slide_bound. apply wrap64_small. unfold BITS. lia.
Qed.

Lemma count_cells (SB size : Z) :
  0 ≤ SB → SB ≤ next_pow2_bits size → next_pow2 size < 2 ^ BITS →
  Z.shiftr (wrap64 (next_pow2 size)) SB = 2 ^ (next_pow2_bits size - SB).
Proof.
  intros H0 Hle Hlt. rewrite wrap64_small.
  - rewrite Z.shiftr_div_pow2 by done. unfold next_pow2.
    replace (next_pow2_bits size) with ((next_pow2_bits size - SB) + SB) at 1 by lia.
    rewrite Z.pow_add_r by lia. apply Z.div_mul. apply Z.pow_nonzero; lia.
  - split; [|done]. unfold next_pow2. apply Z.pow_nonneg. lia.
Qed.

Lemma granules_of_region (SB size : Z) :
  0 ≤ SB → SB ≤ next_pow2_bits size →
  next_pow2 size / SUPERSLAB_SIZE SB = 2 ^ (next_pow2_bits size - SB).
Proof.
  intros H0 Hle. rewrite (next_pow2_split SB size) by done.
  rewrite Z.mul_comm. apply Z.div_mul.
  rewrite SUPERSLAB_SIZE_pow2. apply Z.pow_nonzero; lia.
Qed.

Lemma no_granule_in_small_region (SB size : Z) :
  0 ≤ SB → next_pow2_bits size < SB → next_pow2 size / SUPERSLAB_SIZE SB = 0.
Proof.
  intros H0 Hlt. rewrite SUPERSLAB_SIZE_pow2. unfold next_pow2.
  apply Z.div_small. split.
  - apply Z.pow_nonneg. lia.
  - apply Z.pow_lt_mono_r; [lia | lia | done].
Qed.

(** ** Cells after registration of a large allocation *)

(** The head cell and the slide, for either cell type. *)
Lemma large_cells {T} (SB : Z) (cell : Z → T) (head : T)
    (pm : gmap Z T) (p : ptr) (size j : Z) :
  0 ≤ SB → region_in_address_space p size → SB ≤ next_pow2_bits size →
  redirect_slide SB cell (slide_bound SB size)
    (wrap64 (address_cast p + SUPERSLAB_SIZE SB))
    (pm_set SB pm (address_cast p) head) !! j
  = if decide (pm_index SB (address_cast p) + 1 ≤ j
               < pm_index SB (address_cast p) + 2 ^ (next_pow2_bits size - SB))
    then Some (cell (Z.log2 (j - pm_index SB (address_cast p))))
    else if decide (pm_index SB (address_cast p) = j) then Some head
    else pm !! j.
Proof.
  intros H0 Hfit Hle. rewrite (slide_bound_small SB size p) by done.
  destruct Hfit as [Hp Hfit].
  rewrite redirect_slide_cells; [| done | done | | lia].
  - by rewrite lookup_pm_set.
  - by rewrite <- next_pow2_split.
Qed.

Lemma redirect_cell_small (SB b i : Z) :
  0 ≤ SB → b ≤ 64 → 0 ≤ i < b - SB →
  DefaultChunkMap.redirect_cell SB i = 64 + i + SB.
Proof.
  intros H0 Hb Hi. unfold DefaultChunkMap.redirect_cell.
  rewrite uint8_wrap64. apply uint8_small. lia.
Qed.

Lemma log2_offset_range (k n : Z) : 1 ≤ k < 2 ^ n → 0 ≤ Z.log2 k < n.
Proof.
  intros Hk. split; [apply Z.log2_nonneg|].
  apply Z.log2_lt_pow2; lia.
Qed.

Lemma default_large_cells (SB : Z) (pm : gmap Z Z) (p : ptr) (size j : Z) :
  0 ≤ SB → region_in_address_space p size → SB ≤ next_pow2_bits size →
  DefaultChunkMap.set_large_size SB pm p size !! j
  = if decide (pm_index SB (address_cast p) + 1 ≤ j
               < pm_index SB (address_cast p) + 2 ^ (next_pow2_bits size - SB))
    then Some (64 + Z.log2 (j - pm_index SB (address_cast p)) + SB)
    else if decide (pm_index SB (address_cast p) = j)
         then Some (next_pow2_bits size)
    else pm !! j.
Proof.
  intros H0 Hfit Hle. unfold DefaultChunkMap.set_large_size, DefaultChunkMap.set.
  rewrite large_cells by done.
  pose proof (region_bits_le p size Hfit) as Hb.
  pose proof (next_pow2_bits_nonneg size) as Hb0.
  repeat case_decide; try done.
  - f_equal. apply (redirect_cell_small SB (next_pow2_bits size)); [done|done|].
    apply log2_offset_range. lia.
  - f_equal. apply uint8_small. lia.
Qed.

Lemma default_get_lookup (SB : Z) (pm : gmap Z Z) (a : Z) :
  DefaultChunkMap.get SB pm a = default 0 (pm !! pm_index SB a).
Proof. reflexivity. Qed.

(** ** The registration procedure of the specification *)

Lemma lookup_write_run (m : gmap Z Z) (cursor x len j : Z) :
  write_run m cursor x len !! j
  = if decide (cursor ≤ j < cursor + len) then Some x else m !! j.
Proof.
  unfold write_run. rewrite lookup_insert_all.
  destruct (decide (j ∈ seqZ cursor len)) as [Hin|Hin];
    rewrite elem_of_seqZ in Hin.
  - by rewrite decide_True.
  - by rewrite decide_False.
Qed.

Lemma register_large_steps (SB h : Z) (k : nat) : ∀ (i : Z) (m : gmap Z Z) (j : Z),
  0 ≤ i →
  (foldl (register_large_step SB) (h + 2 ^ i, m) (seqZ i (Z.of_nat k))).2 !! j
  = if decide (h + 2 ^ i ≤ j < h + 2 ^ (i + Z.of_nat k))
    then Some (64 + Z.log2 (j - h) + SB)
    else m !! j.
Proof.
  induction k as [|k IH]; intros i m j Hi.
  - simpl. rewrite Z.add_0_r. by rewrite decide_False by lia.
  - rewrite seqZ_cons by lia. cbn [foldl].
    replace (Z.pred (Z.of_nat (S k))) with (Z.of_nat k) by lia.
    unfold register_large_step at 2. cbn [fst snd].
    assert (2 ^ (i + 1) = 2 * 2 ^ i) as Hp by (rewrite Z.pow_add_r; lia).
    replace (h + 2 ^ i + 2 ^ i) with (h + 2 ^ Z.succ i) by (unfold Z.succ; lia).
    rewrite IH by lia. rewrite lookup_write_run.
    replace (Z.succ i + Z.of_nat k) with (i + Z.of_nat (S k)) by lia.
    unfold Z.succ.
    assert (0 < 2 ^ i) by (apply Z.pow_pos_nonneg; lia).
    assert (2 ^ (i + 1) ≤ 2 ^ (i + Z.of_nat (S k)))
      by (apply Z.pow_le_mono_r; lia).
    repeat case_decide; try lia; try done.
    do 3 f_equal. symmetry. apply Z.log2_unique; lia.
Qed.

Lemma register_large_spec_cells (SB : Z) (pm : gmap Z Z) (p size j : Z) :
  SB ≤ next_pow2_bits size →
  register_large_spec SB pm p size !! j
  = if decide (pm_index SB p + 1 ≤ j
               < pm_index SB p + 2 ^ (next_pow2_bits size - SB))
    then Some (64 + Z.log2 (j - pm_index SB p) + SB)
    else if decide (pm_index SB p = j) then Some (next_pow2_bits size)
    else pm !! j.
Proof.
  intros Hle. unfold register_large_spec. cbv zeta.
  unfold next_pow2. rewrite Z.log2_pow2 by apply next_pow2_bits_nonneg.
  pose proof (register_large_steps SB (pm_index SB p)
                (Z.to_nat (next_pow2_bits size - SB)) 0) as H.
  rewrite Z2Nat.id in H by lia. simpl in H. rewrite H by lia.
  by rewrite lookup_insert.
Qed.

(** ** Distance codes of the redirect slide *)

Ltac concrete := vm_compute; first [reflexivity | discriminate | done].

(** C1, as stated, fails: with [SUPERSLAB_BITS = 21], after registering [2^24]
    bytes at [0x1000000] the cell one granule after the head holds [85], and
    [2^(85-64) = 2^21] is not a lower bound for the offset [k = 1] counted in
    granule-cells. *)
Lemma redirect_code_bounds_granules_counterexample :
  let x := DefaultChunkMap.get scenario_BITS
             (DefaultChunkMap.set_large_size scenario_BITS ∅ scenario_A scenario_S)
             (address_cast scenario_A + 1 * SUPERSLAB_SIZE scenario_BITS) in
  static_assert_disjoint scenario_BITS ∧
  region_in_address_space scenario_A scenario_S ∧
  1 ≤ 1 < next_pow2 scenario_S / SUPERSLAB_SIZE scenario_BITS ∧
  x = 85 ∧
  ¬ (2 ^ (x - 64) ≤ 1 < 2 ^ (x + 1 - 64)).
Proof.
  cbv zeta.
  assert (DefaultChunkMap.get scenario_BITS
            (DefaultChunkMap.set_large_size scenario_BITS ∅ scenario_A scenario_S)
            (address_cast scenario_A + 1 * SUPERSLAB_SIZE scenario_BITS) = 85)
    as -> by (vm_compute; reflexivity).
  repeat split; try concrete.
  intros [Hlo _]. revert Hlo. concrete.
Qed.

(** C1 (amended): after [set_large_size(p, S)], every body cell at offset [k]
    granules from the head, [1 <= k < next_pow2(S)/granule], holds a code [x]
    of the range [64, 128) that bounds the distance to the head counted in
    bytes: [2^(x-64) <= k * SUPERSLAB_SIZE < 2^(x+1-64)]. *)
Theorem redirect_code_bounds_bytes (SB : Z) (pm : gmap Z Z) (p : ptr) (size k : Z) :
  static_assert_disjoint SB →
  region_in_address_space p size →
  1 ≤ k < next_pow2 size / SUPERSLAB_SIZE SB →
  let x := DefaultChunkMap.get SB (DefaultChunkMap.set_large_size SB pm p size)
             (address_cast p + k * SUPERSLAB_SIZE SB) in
  is_redirect_code x ∧
  2 ^ (x - 64) ≤ k * SUPERSLAB_SIZE SB < 2 ^ (x + 1 - 64).
Proof.
  unfold static_assert_disjoint. simpl. intros Hsb Hfit Hk.
  assert (SB < next_pow2_bits size) as Hlt.
  { destruct (Z.lt_ge_cases SB (next_pow2_bits size)) as [|Hge]; [done|exfalso].
    destruct (Z.eq_dec SB (next_pow2_bits size)) as [Heq|Hne].
    - rewrite granules_of_region in Hk by lia.
      replace (next_pow2_bits size - SB) with 0 in Hk by lia. simpl in Hk. lia.
    - rewrite no_granule_in_small_region in Hk by lia. lia. }
  rewrite granules_of_region in Hk by lia.
  rewrite default_get_lookup, pm_index_offset by lia.
  rewrite default_large_cells by (done || lia).
  rewrite decide_True by lia. simpl.
  replace (pm_index SB (address_cast p) + k - pm_index SB (address_cast p))
    with k by lia.
  pose proof (log2_offset_range k _ Hk) as Hlog.
  pose proof (region_bits_le p size Hfit) as Hb.
  pose proof (Z.log2_spec k ltac:(lia)) as Hspec.
  split; [unfold is_redirect_code; lia|].
  rewrite SUPERSLAB_SIZE_pow2.
  replace (64 + Z.log2 k + SB - 64) with (Z.log2 k + SB) by lia.
  replace (64 + Z.log2 k + SB + 1 - 64) with (Z.succ (Z.log2 k) + SB) by lia.
  rewrite !Z.pow_add_r by lia.
  assert (0 < 2 ^ SB) by (apply Z.pow_pos_nonneg; lia).
  nia.
Qed.

Lemma redirect_code_bounds_bytes_witness :
  let x := DefaultChunkMap.get scenario_BITS
             (DefaultChunkMap.set_large_size scenario_BITS ∅ scenario_A scenario_S)
             (address_cast scenario_A + 5 * SUPERSLAB_SIZE scenario_BITS) in
  static_assert_disjoint scenario_BITS ∧
  region_in_address_space scenario_A scenario_S ∧
  1 ≤ 5 < next_pow2 scenario_S / SUPERSLAB_SIZE scenario_BITS ∧
  is_redirect_code x ∧
  2 ^ (x - 64) ≤ 5 * SUPERSLAB_SIZE scenario_BITS < 2 ^ (x + 1 - 64).
Proof.
  assert (static_assert_disjoint scenario_BITS) as H1 by concrete.
  assert (region_in_address_space scenario_A scenario_S) as H2
    by (split; concrete).
  assert (1 ≤ 5 < next_pow2 scenario_S / SUPERSLAB_SIZE scenario_BITS) as H3
    by (split; concrete).
  cbv zeta. split; [exact H1|]. split; [exact H2|]. split; [exact H3|].
  exact (redirect_code_bounds_bytes scenario_BITS ∅ scenario_A scenario_S 5
           H1 H2 H3).
Defined.

(** C2: [set_large_size(p, S)] performs the registration procedure of the
    specification: it writes [b = log2(next_pow2(S))] to the head cell and then,
    from the next cell on, for [i = 0, 1, ...] with [i < b - SUPERSLAB_BITS] the
    code [64 + i + SUPERSLAB_BITS] to a run of [2^i] cells, moving the cursor by
    [2^i] granules.  With [SUPERSLAB_BITS = 21] and [S = 2^24] the head reads
    24, offset 1 reads 85, offsets 2-3 read 86, offsets 4-7 read 87, and these
    eight cells are all the cells written. *)
Theorem set_large_size_redirect_slide :
  (∀ (SB : Z) (pm : gmap Z Z) (p : ptr) (size : Z),
     static_assert_disjoint SB →
     region_in_address_space p size →
     SB ≤ next_pow2_bits size →
     DefaultChunkMap.set_large_size SB pm p size
     = register_large_spec SB pm (address_cast p) size) ∧
  (let pm := DefaultChunkMap.set_large_size scenario_BITS ∅ scenario_A scenario_S in
   let head := pm_index scenario_BITS (address_cast scenario_A) in
   next_pow2_bits scenario_S = 24 ∧
   map (fun k => DefaultChunkMap.get scenario_BITS pm
                   (address_cast scenario_A + k * SUPERSLAB_SIZE scenario_BITS))
     (seqZ 0 8) = [24; 85; 86; 86; 87; 87; 87; 87] ∧
   ∀ j : Z, is_Some (pm !! j) ↔ head ≤ j < head + 8).
Proof.
  split.
  - unfold static_assert_disjoint. simpl. intros SB pm p size Hsb Hfit Hle.
    apply map_eq. intros j.
    rewrite default_large_cells by (done || lia).
    by rewrite register_large_spec_cells.
  - cbv zeta. split; [concrete|]. split; [concrete|].
    intros j. rewrite default_large_cells; [| concrete | split; concrete | concrete].
    replace (pm_index scenario_BITS (address_cast scenario_A)) with 8
      by (vm_compute; reflexivity).
    replace (2 ^ (next_pow2_bits scenario_S - scenario_BITS)) with 8
      by (vm_compute; reflexivity).
    repeat case_decide; rewrite ?lookup_empty; split;
      try lia; try (intros; eexists; reflexivity).
    intros [? ?]. discriminate.
Qed.

Lemma set_large_size_redirect_slide_witness :
  static_assert_disjoint scenario_BITS ∧
  region_in_address_space scenario_A scenario_S ∧
  scenario_BITS ≤ next_pow2_bits scenario_S ∧
  DefaultChunkMap.set_large_size scenario_BITS ∅ scenario_A scenario_S
  = register_large_spec scenario_BITS ∅ (address_cast scenario_A) scenario_S.
Proof.
  assert (static_assert_disjoint scenario_BITS) as H1 by concrete.
  assert (region_in_address_space scenario_A scenario_S) as H2
    by (split; concrete).
  assert (scenario_BITS ≤ next_pow2_bits scenario_S) as H3 by concrete.
  split; [exact H1|]. split; [exact H2|]. split; [exact H3|].
  exact (proj1 set_large_size_redirect_slide scenario_BITS ∅ scenario_A
           scenario_S H1 H2 H3).
Defined.

(** ** Registration followed by release of a large allocation *)

Lemma default_head_after_set_large_size (SB : Z) (pm : gmap Z Z) (p : ptr) (size : Z) :
  0 ≤ SB → region_in_address_space p size → SB ≤ next_pow2_bits size →
  DefaultChunkMap.get_ptr SB (DefaultChunkMap.set_large_size SB pm p size) p
  = next_pow2_bits size.
Proof.
  intros H0 Hfit Hle. unfold DefaultChunkMap.get_ptr.
  rewrite default_get_lookup, default_large_cells by done.
  rewrite decide_False by lia. by rewrite decide_True.
Qed.

(** C3: for [S] of at least one granule, [set_large_size(p, S)] followed by
    [clear_large_size(p, S)] leaves every touched cell at [CMNotOurs]: the clear
    passes its assertion and resets [count = next_pow2(S) >> SUPERSLAB_BITS]
    consecutive cells from the cell of [p] on, and these are the cells, head and
    body, that the registration wrote. *)
Theorem clear_large_size_after_set_large_size
    (NDEBUG : bool) (SB : Z) (pm : gmap Z Z) (p : ptr) (size : Z) :
  static_assert_disjoint SB →
  region_in_address_space p size →
  next_pow2 size < 2 ^ BITS →
  SUPERSLAB_SIZE SB ≤ size →
  let head := pm_index SB (address_cast p) in
  let count := Z.shiftr (wrap64 (next_pow2 size)) SB in
  let registered := DefaultChunkMap.set_large_size SB pm p size in
  (∀ j, head ≤ j < head + count →
        ∃ c, registered !! j = Some c ∧ (is_size_code SB c ∨ is_redirect_code c)) ∧
  (∀ j, ¬ (head ≤ j < head + count) → registered !! j = pm !! j) ∧
  ∃ cleared,
    DefaultChunkMap.clear_large_size NDEBUG SB registered p size = Some cleared ∧
    (∀ j, cleared !! j
          = if decide (head ≤ j < head + count)
            then Some (kind_value CMNotOurs) else pm !! j) ∧
    (∀ k, 0 ≤ k < count →
          DefaultChunkMap.get SB cleared (address_cast p + k * SUPERSLAB_SIZE SB)
          = CMNotOurs).
Proof.
  unfold static_assert_disjoint. simpl. intros Hsb Hfit Hlt Hsize.
  assert (0 ≤ SB) as H0 by lia.
  pose proof (granule_le_bits SB size H0 Hsize) as Hle.
  pose proof (next_pow2_bits_lt size Hlt) as Hb.
  rewrite count_cells by done.
  assert (0 < 2 ^ (next_pow2_bits size - SB)) as Hpos
    by (apply Z.pow_pos_nonneg; lia).
  assert (∀ j, DefaultChunkMap.clear_large_size NDEBUG SB
                 (DefaultChunkMap.set_large_size SB pm p size) p size
               = Some (pm_set_range SB (DefaultChunkMap.set_large_size SB pm p size)
                         (address_cast p) CMNotOurs
                         (2 ^ (next_pow2_bits size - SB))) ∧
               pm_set_range SB (DefaultChunkMap.set_large_size SB pm p size)
                 (address_cast p) CMNotOurs (2 ^ (next_pow2_bits size - SB)) !! j
               = if decide (pm_index SB (address_cast p) ≤ j
                            < pm_index SB (address_cast p)
                              + 2 ^ (next_pow2_bits size - SB))
                 then Some 0 else pm !! j) as Hclear.
  { intros j. split.
    - unfold DefaultChunkMap.clear_large_size. cbv zeta.
      pose proof (default_head_after_set_large_size SB pm p size H0 Hfit Hle) as Hhead.
      unfold DefaultChunkMap.get_ptr in Hhead. rewrite Hhead, Z.eqb_refl.
      unfold assert_holds. rewrite orb_true_r. by rewrite count_cells.
    - rewrite lookup_pm_set_range. case_decide as Hin; [done|].
      rewrite default_large_cells by done.
      rewrite !decide_False by lia. done. }
  split; [|split].
  - intros j Hj. rewrite default_large_cells by done.
    destruct (decide (pm_index SB (address_cast p) + 1 ≤ j
                      < pm_index SB (address_cast p)
                        + 2 ^ (next_pow2_bits size - SB))) as [Hbody|Hhead].
    + eexists. split; [done|]. right. unfold is_redirect_code.
      assert (0 ≤ Z.log2 (j - pm_index SB (address_cast p))
              < next_pow2_bits size - SB) by (apply log2_offset_range; lia).
      lia.
    + rewrite decide_True by lia. eexists. split; [done|]. left.
      unfold is_size_code. lia.
  - intros j Hj. rewrite default_large_cells by done.
    rewrite !decide_False by lia. done.
  - eexists. split; [apply (Hclear 0)|]. split.
    + intros j. apply Hclear.
    + intros k Hk. rewrite default_get_lookup, pm_index_offset by done.
      destruct (Hclear (pm_index SB (address_cast p) + k)) as [_ ->].
      by rewrite decide_True by lia.
Qed.

Lemma clear_large_size_after_set_large_size_witness :
  static_assert_disjoint scenario_BITS ∧
  region_in_address_space scenario_A scenario_S ∧
  next_pow2 scenario_S < 2 ^ BITS ∧
  SUPERSLAB_SIZE scenario_BITS ≤ scenario_S ∧
  ∃ cleared,
    DefaultChunkMap.clear_large_size false scenario_BITS
      (DefaultChunkMap.set_large_size scenario_BITS ∅ scenario_A scenario_S)
      scenario_A scenario_S = Some cleared ∧
    ∀ k, 0 ≤ k < Z.shiftr (wrap64 (next_pow2 scenario_S)) scenario_BITS →
         DefaultChunkMap.get scenario_BITS cleared
           (address_cast scenario_A + k * SUPERSLAB_SIZE scenario_BITS)
         = CMNotOurs.
Proof.
  assert (static_assert_disjoint scenario_BITS) as H1 by concrete.
  assert (region_in_address_space scenario_A scenario_S) as H2
    by (split; concrete).
  assert (next_pow2 scenario_S < 2 ^ BITS) as H3 by concrete.
  assert (SUPERSLAB_SIZE scenario_BITS ≤ scenario_S) as H4 by concrete.
  split; [exact H1|]. split; [exact H2|]. split; [exact H3|]. split; [exact H4|].
  destruct (clear_large_size_after_set_large_size false scenario_BITS ∅
              scenario_A scenario_S H1 H2 H3 H4)
    as (_ & _ & cleared & Hc & _ & Hget).
  exists cleared. split; [exact Hc | exact Hget].
Defined.

(** ** Slab registration *)

Lemma default_get_set (SB : Z) (pm : gmap Z Z) (a : ptr) (x : Z) :
  DefaultChunkMap.get_ptr SB (DefaultChunkMap.set SB pm a x) a = x.
Proof.
  unfold DefaultChunkMap.get_ptr, DefaultChunkMap.set.
  rewrite default_get_lookup, lookup_pm_set. by rewrite decide_True.
Qed.

Lemma default_set_other (SB : Z) (pm : gmap Z Z) (a : ptr) (x j : Z) :
  j ≠ pm_index SB (address_cast a) → DefaultChunkMap.set SB pm a x !! j = pm !! j.
Proof.
  intros Hne. unfold DefaultChunkMap.set. rewrite lookup_pm_set.
  by rewrite decide_False.
Qed.

(** C4: right after [set_slab] on a superslab, [get] of its address is
    [CMSuperslab]; right after [clear_slab] it is [CMNotOurs]; likewise with
    [CMMediumslab] for a medium slab.  Each operation changes no cell but the
    one that contains the address. *)
Theorem slab_registration_get
    (NDEBUG : bool) (SB : Z) (pm : gmap Z Z) (a : ptr) :
  let cell := pm_index SB (address_cast a) in
  let super := DefaultChunkMap.set_slab_Superslab SB pm a in
  let medium := DefaultChunkMap.set_slab_Mediumslab SB pm a in
  (DefaultChunkMap.get_ptr SB super a = CMSuperslab ∧
   ∀ j, j ≠ cell → super !! j = pm !! j) ∧
  (DefaultChunkMap.get_ptr SB medium a = CMMediumslab ∧
   ∀ j, j ≠ cell → medium !! j = pm !! j) ∧
  (∃ pm', DefaultChunkMap.clear_slab_Superslab NDEBUG SB super a = Some pm' ∧
          DefaultChunkMap.get_ptr SB pm' a = CMNotOurs ∧
          ∀ j, j ≠ cell → pm' !! j = pm !! j) ∧
  (∃ pm', DefaultChunkMap.clear_slab_Mediumslab NDEBUG SB medium a = Some pm' ∧
          DefaultChunkMap.get_ptr SB pm' a = CMNotOurs ∧
          ∀ j, j ≠ cell → pm' !! j = pm !! j) ∧
  (∀ pm', DefaultChunkMap.clear_slab_Superslab NDEBUG SB pm a = Some pm' →
          DefaultChunkMap.get_ptr SB pm' a = CMNotOurs ∧
          ∀ j, j ≠ cell → pm' !! j = pm !! j) ∧
  (∀ pm', DefaultChunkMap.clear_slab_Mediumslab NDEBUG SB pm a = Some pm' →
          DefaultChunkMap.get_ptr SB pm' a = CMNotOurs ∧
          ∀ j, j ≠ cell → pm' !! j = pm !! j).
Proof.
  cbv zeta.
  unfold DefaultChunkMap.set_slab_Superslab, DefaultChunkMap.set_slab_Mediumslab,
    DefaultChunkMap.clear_slab_Superslab, DefaultChunkMap.clear_slab_Mediumslab.
  rewrite !default_get_set, !Z.eqb_refl.
  unfold assert_holds. rewrite !orb_true_r.
  repeat split.
  - intros j Hj. by apply default_set_other.
  - intros j Hj. by apply default_set_other.
  - eexists. split; [done|]. split; [apply default_get_set|].
    intros j Hj. by rewrite !default_set_other.
  - eexists. split; [done|]. split; [apply default_get_set|].
    intros j Hj. by rewrite !default_set_other.
  - destruct (_ || _); [|done]. injection H as <-. apply default_get_set.
  - destruct (_ || _); [|done]. injection H as <-.
    intros j Hj. by apply default_set_other.
  - destruct (_ || _); [|done]. injection H as <-. apply default_get_set.
  - destruct (_ || _); [|done]. injection H as <-.
    intros j Hj. by apply default_set_other.
Qed.

Lemma slab_registration_get_witness :
  DefaultChunkMap.clear_slab_Superslab false scenario_BITS
    (DefaultChunkMap.set_slab_Superslab scenario_BITS ∅ scenario_A) scenario_A
  = Some (DefaultChunkMap.set scenario_BITS
            (DefaultChunkMap.set_slab_Superslab scenario_BITS ∅ scenario_A)
            scenario_A CMNotOurs) ∧
  DefaultChunkMap.get_ptr scenario_BITS
    (DefaultChunkMap.set scenario_BITS
       (DefaultChunkMap.set_slab_Superslab scenario_BITS ∅ scenario_A)
       scenario_A CMNotOurs) scenario_A = CMNotOurs.
Proof.
  assert (DefaultChunkMap.clear_slab_Superslab false scenario_BITS
            (DefaultChunkMap.set_slab_Superslab scenario_BITS ∅ scenario_A)
            scenario_A
          = Some (DefaultChunkMap.set scenario_BITS
                    (DefaultChunkMap.set_slab_Superslab scenario_BITS ∅ scenario_A)
                    scenario_A CMNotOurs)) as H by (vm_compute; reflexivity).
  split; [exact H|].
  destruct (slab_registration_get false scenario_BITS
              (DefaultChunkMap.set_slab_Superslab scenario_BITS ∅ scenario_A)
              scenario_A) as (_ & _ & _ & _ & Hclear & _).
  exact (proj1 (Hclear _ H)).
Defined.

(** ** Assertions of the clearing operations *)

(** C6: in a build that checks assertions, [clear_slab] writes [CMNotOurs] only
    when the cell holds the expected tag ([CMSuperslab], [CMMediumslab]) and
    aborts otherwise, and [clear_large_size] clears only when the head cell
    holds [next_pow2_bits(size)].  When the matching registration came before
    and the cell still reads what it wrote, the assertion holds and the
    operation goes through. *)
Theorem clear_assertions_hold
    (SB : Z) (pm pm' : gmap Z Z) (slab p : ptr) (size : Z) :
  (DefaultChunkMap.clear_slab_Superslab false SB pm' slab
   = if DefaultChunkMap.get_ptr SB pm' slab =? CMSuperslab
     then Some (DefaultChunkMap.set SB pm' slab CMNotOurs) else None) ∧
  (DefaultChunkMap.clear_slab_Mediumslab false SB pm' slab
   = if DefaultChunkMap.get_ptr SB pm' slab =? CMMediumslab
     then Some (DefaultChunkMap.set SB pm' slab CMNotOurs) else None) ∧
  (DefaultChunkMap.clear_large_size false SB pm' p size
   = if DefaultChunkMap.get_ptr SB pm' p =? next_pow2_bits size
     then Some (pm_set_range SB pm' (address_cast p) CMNotOurs
                  (Z.shiftr (wrap64 (next_pow2 size)) SB))
     else None) ∧
  (DefaultChunkMap.get_ptr SB pm' slab
   = DefaultChunkMap.get_ptr SB (DefaultChunkMap.set_slab_Superslab SB pm slab) slab →
   is_Some (DefaultChunkMap.clear_slab_Superslab false SB pm' slab)) ∧
  (DefaultChunkMap.get_ptr SB pm' slab
   = DefaultChunkMap.get_ptr SB (DefaultChunkMap.set_slab_Mediumslab SB pm slab) slab →
   is_Some (DefaultChunkMap.clear_slab_Mediumslab false SB pm' slab)) ∧
  (static_assert_disjoint SB →
   region_in_address_space p size →
   SB ≤ next_pow2_bits size →
   DefaultChunkMap.get_ptr SB pm' p
   = DefaultChunkMap.get_ptr SB (DefaultChunkMap.set_large_size SB pm p size) p →
   is_Some (DefaultChunkMap.clear_large_size false SB pm' p size)).
Proof.
  unfold DefaultChunkMap.clear_slab_Superslab, DefaultChunkMap.clear_slab_Mediumslab,
    DefaultChunkMap.clear_large_size, DefaultChunkMap.set_slab_Superslab,
    DefaultChunkMap.set_slab_Mediumslab, assert_holds.
  cbv zeta. rewrite !orb_false_l, !default_get_set.
  change (DefaultChunkMap.get SB pm' (address_cast p))
    with (DefaultChunkMap.get_ptr SB pm' p).
  split; [done|]. split; [done|]. split; [done|].
  split; [|split].
  - intros ->. by rewrite Z.eqb_refl.
  - intros ->. by rewrite Z.eqb_refl.
  - unfold static_assert_disjoint. simpl. intros Hsb Hfit Hle ->.
    rewrite default_head_after_set_large_size by (done || lia).
    by rewrite Z.eqb_refl.
Qed.

Lemma clear_assertions_hold_witness :
  static_assert_disjoint scenario_BITS ∧
  region_in_address_space scenario_A scenario_S ∧
  scenario_BITS ≤ next_pow2_bits scenario_S ∧
  is_Some (DefaultChunkMap.clear_slab_Superslab false scenario_BITS
             (DefaultChunkMap.set_slab_Superslab scenario_BITS ∅ scenario_A)
             scenario_A) ∧
  is_Some (DefaultChunkMap.clear_large_size false scenario_BITS
             (DefaultChunkMap.set_large_size scenario_BITS ∅ scenario_A scenario_S)
             scenario_A scenario_S).
Proof.
  assert (static_assert_disjoint scenario_BITS) as H1 by concrete.
  assert (region_in_address_space scenario_A scenario_S) as H2
    by (split; concrete).
  assert (scenario_BITS ≤ next_pow2_bits scenario_S) as H3 by concrete.
  split; [exact H1|]. split; [exact H2|]. split; [exact H3|]. split.
  - destruct (clear_assertions_hold scenario_BITS ∅
                (DefaultChunkMap.set_slab_Superslab scenario_BITS ∅ scenario_A)
                scenario_A scenario_A scenario_S) as (_ & _ & _ & Hs & _).
    exact (Hs eq_refl).
  - destruct (clear_assertions_hold scenario_BITS ∅
                (DefaultChunkMap.set_large_size scenario_BITS ∅ scenario_A scenario_S)
                scenario_A scenario_A scenario_S) as (_ & _ & _ & _ & _ & Hl).
    exact (Hl H1 H2 H3 eq_refl).
Defined.

(** ** Disjointness of tags and codes *)

(** C7: the tags [CMNotOurs = 0], [CMSuperslab = 1], [CMMediumslab = 2], the
    size codes [SUPERSLAB_BITS, 64) and the redirect codes [64, 128) are
    pairwise disjoint exactly when [SUPERSLAB_BITS > CMMediumslab], which is
    what the static assertion demands. *)
Theorem tags_disjoint_from_codes (SB : Z) :
  0 ≤ SB →
  (kind_value CMNotOurs = 0 ∧ kind_value CMSuperslab = 1 ∧
   kind_value CMMediumslab = 2) ∧
  (static_assert_disjoint SB ↔ 2 < SB) ∧
  (static_assert_disjoint SB ↔
   ∀ (k : ChunkMapSuperslabKind) (c : Z),
     is_size_code SB c ∨ is_redirect_code c → kind_value k ≠ c) ∧
  (∀ c : Z, ¬ (is_size_code SB c ∧ is_redirect_code c)).
Proof.
  intros H0. unfold static_assert_disjoint, is_size_code, is_redirect_code.
  split; [done|]. split; [simpl; lia|]. split; [split|].
  - simpl. intros Hsb k c Hc. destruct k; simpl; lia.
  - intros Hdis. simpl.
    destruct (Z.lt_ge_cases 2 SB) as [|Hle]; [done|exfalso].
    destruct (Z.eq_dec SB 0) as [->|]; [by apply (Hdis CMNotOurs 0); [left|]|].
    destruct (Z.eq_dec SB 1) as [->|]; [by apply (Hdis CMSuperslab 1); [left|]|].
    assert (SB = 2) as -> by lia. by apply (Hdis CMMediumslab 2); [left|].
  - intros c. lia.
Qed.

Lemma tags_disjoint_from_codes_witness :
  0 ≤ scenario_BITS ∧
  (static_assert_disjoint scenario_BITS ↔
   ∀ (k : ChunkMapSuperslabKind) (c : Z),
     is_size_code scenario_BITS c ∨ is_redirect_code c → kind_value k ≠ c).
Proof.
  assert (0 ≤ scenario_BITS) as H0 by concrete.
  split; [exact H0|].
  exact (proj1 (proj2 (proj2 (tags_disjoint_from_codes scenario_BITS H0)))).
Defined.

(** ** Termination of the redirect slide *)

(** C8: for [SUPERSLAB_SIZE <= next_pow2(S) < 2^64] the loop of
    [set_large_size] runs its body [next_pow2_bits(S) - SUPERSLAB_BITS] times,
    no more and no fewer, which is at most [64 - SUPERSLAB_BITS], in both chunk
    maps; every other operation is at most one pagemap read and one pagemap
    write. *)
Theorem redirect_slide_iterations (SB size : Z) :
  static_assert_disjoint SB →
  SUPERSLAB_SIZE SB ≤ next_pow2 size < 2 ^ BITS →
  let n := next_pow2_bits size - SB in
  slide_bound SB size = n ∧
  0 ≤ n ≤ 64 - SB ∧
  (∀ (T : Type) (cell : Z → T) (fuel : nat) (ss : Z) (pm : gmap Z T),
     slide_loop SB cell fuel (slide_bound SB size) (mk_slide 0 ss pm)
     = if decide (n ≤ Z.of_nat fuel)
       then Some (Nat.iter (Z.to_nat n) (slide_body SB cell) (mk_slide 0 ss pm))
       else None) ∧
  (∀ (pm : gmap Z Z) (p : ptr),
     DefaultChunkMap.set_large_size SB pm p size
     = sl_pm (Nat.iter (Z.to_nat n)
                (slide_body SB (DefaultChunkMap.redirect_cell SB))
                (mk_slide 0 (wrap64 (address_cast p + SUPERSLAB_SIZE SB))
                   (DefaultChunkMap.set SB pm p (uint8 (next_pow2_bits size)))))) ∧
  (∀ (cm : gmap Z ptr) (vp : ptr),
     PalChunkMap.set_large_size SB cm vp size
     = sl_pm (Nat.iter (Z.to_nat n)
                (slide_body SB (PalChunkMap.redirect_cell SB vp))
                (mk_slide 0 (address_cast (pointer_offset vp (SUPERSLAB_SIZE SB)))
                   (PalChunkMap.set SB cm vp
                      (pointer_offset vp (next_pow2_bits size)))))) ∧
  (∀ (NDEBUG : bool) (pm : gmap Z Z) (p : ptr),
     DefaultChunkMap.get_ptr SB pm p = pm_get 0 SB pm (address_cast p) ∧
     DefaultChunkMap.set_slab_Superslab SB pm p
     = pm_set SB pm (address_cast p) CMSuperslab ∧
     DefaultChunkMap.set_slab_Mediumslab SB pm p
     = pm_set SB pm (address_cast p) CMMediumslab ∧
     DefaultChunkMap.clear_slab_Superslab NDEBUG SB pm p
     = (if assert_holds NDEBUG (pm_get 0 SB pm (address_cast p) =? CMSuperslab)
        then Some (pm_set SB pm (address_cast p) CMNotOurs) else None) ∧
     DefaultChunkMap.clear_slab_Mediumslab NDEBUG SB pm p
     = (if assert_holds NDEBUG (pm_get 0 SB pm (address_cast p) =? CMMediumslab)
        then Some (pm_set SB pm (address_cast p) CMNotOurs) else None) ∧
     DefaultChunkMap.clear_large_size NDEBUG SB pm p size
     = (if assert_holds NDEBUG
             (pm_get 0 SB pm (address_cast p) =? next_pow2_bits size)
        then Some (pm_set_range SB pm (address_cast p) CMNotOurs (2 ^ n))
        else None)).
Proof.
  unfold static_assert_disjoint. simpl. intros Hsb [Hlo Hhi]. cbv zeta.
  assert (0 ≤ SB) as H0 by lia.
  pose proof (next_pow2_bits_lt size Hhi) as Hb.
  assert (SB ≤ next_pow2_bits size) as Hle.
  { rewrite SUPERSLAB_SIZE_pow2 in Hlo. unfold next_pow2 in Hlo.
    apply pow2_le_inv; [apply next_pow2_bits_nonneg | done]. }
  assert (slide_bound SB size = next_pow2_bits size - SB) as Hbound.
  { unfold slide_bound. apply wrap64_small. unfold BITS. lia. }
  rewrite Hbound.
  split; [done|]. split; [lia|]. split; [|split; [|split]].
  - intros T cell fuel ss pm.
    rewrite slide_loop_iterations by (simpl; unfold BITS; lia).
    simpl. by rewrite Z.sub_0_r.
  - intros pm p. unfold DefaultChunkMap.set_large_size. cbv zeta.
    rewrite Hbound. apply redirect_slide_iter. unfold BITS. lia.
  - intros cm vp. unfold PalChunkMap.set_large_size. cbv zeta.
    rewrite Hbound. apply redirect_slide_iter. unfold BITS. lia.
  - intros NDEBUG pm p. repeat split.
    unfold DefaultChunkMap.clear_large_size. cbv zeta.
    by rewrite count_cells.
Qed.

Lemma redirect_slide_iterations_witness :
  static_assert_disjoint scenario_BITS ∧
  SUPERSLAB_SIZE scenario_BITS ≤ next_pow2 scenario_S < 2 ^ BITS ∧
  slide_bound scenario_BITS scenario_S = next_pow2_bits scenario_S - scenario_BITS ∧
  0 ≤ next_pow2_bits scenario_S - scenario_BITS ≤ 64 - scenario_BITS.
Proof.
  assert (static_assert_disjoint scenario_BITS) as H1 by concrete.
  assert (SUPERSLAB_SIZE scenario_BITS ≤ next_pow2 scenario_S < 2 ^ BITS) as H2
    by (split; concrete).
  split; [exact H1|]. split; [exact H2|].
  destruct (redirect_slide_iterations scenario_BITS scenario_S H1 H2)
    as (Hb & Hn & _).
  split; [exact Hb | exact Hn].
Defined.

(** ** Pointer rederivation on ordinary hardware *)

(** C9: [DefaultChunkMap::getp] returns its argument; it takes no pagemap, and
    only the instantiation with [offset = true] exists. *)
Theorem default_getp_identity (p : ptr) :
  DefaultChunkMap.getp true p = Some p ∧ DefaultChunkMap.getp false p = None.
Proof. split; reflexivity. Qed.

(** ** Pointer rederivation in the capability chunk map *)

Lemma align_down_pow2 (a n : Z) :
  0 ≤ n → align_down a (2 ^ n) = 2 ^ n * (a / 2 ^ n).
Proof.
  intros Hn. unfold align_down.
  rewrite <- Z.ldiff_land. rewrite Z.sub_1_r, <- Z.ones_equiv.
  rewrite Z.ldiff_ones_r by done.
  rewrite Z.shiftl_mul_pow2, Z.shiftr_div_pow2 by done. lia.
Qed.

Lemma align_down_code (base c : Z) :
  base mod 256 = 0 → 0 ≤ c < 256 → align_down (base + c) 256 = base.
Proof.
  intros Hbase Hc. change 256 with (2 ^ 8) at 1.
  rewrite align_down_pow2 by lia. change (2 ^ 8) with 256.
  apply Z.mod_divide in Hbase as [q ->]; [|lia].
  rewrite Z.add_comm, Z.div_add by lia.
  rewrite Z.div_small by done. lia.
Qed.

Lemma granule_aligned_256 (SB : Z) (p : ptr) :
  8 ≤ SB → granule_aligned SB p → address_cast p mod 256 = 0.
Proof.
  unfold granule_aligned. rewrite SUPERSLAB_SIZE_pow2. intros HSB Hal.
  apply Z.mod_divide in Hal as [q Hq]; [|apply Z.pow_nonzero; lia].
  rewrite Hq. replace SB with ((SB - 8) + 8) by lia.
  rewrite Z.pow_add_r by lia. change (2 ^ 8) with 256.
  rewrite Z.mul_assoc. apply Z.mod_mul. lia.
Qed.

Lemma slab_aligned_true (SB : Z) (slab : ptr) :
  0 ≤ SB → granule_aligned SB slab → PalChunkMap.slab_aligned SB slab = true.
Proof.
  unfold granule_aligned, PalChunkMap.slab_aligned. intros H0 Hal.
  apply bool_decide_eq_true. destruct slab as [auth addr].
  unfold pointer_align_down. simpl in *. f_equal.
  rewrite SUPERSLAB_SIZE_pow2 in *. rewrite align_down_pow2 by done.
  assert (2 ^ SB ≠ 0) by (apply Z.pow_nonzero; lia).
  pose proof (Z.div_mod addr (2 ^ SB)). lia.
Qed.

Lemma pointer_offset_code (p : ptr) (c : Z) :
  valid_address p → address_cast p mod 256 = 0 → 0 ≤ c < 256 →
  pointer_align_down PalChunkMap.PAGEMAP_PTR_ALIGN (pointer_offset p c) = p.
Proof.
  unfold valid_address, BITS. destruct p as [auth addr]. simpl.
  intros Hv Hal Hc. unfold pointer_align_down, pointer_offset. simpl. f_equal.
  rewrite wrap64_small.
  - by apply align_down_code.
  - unfold BITS. apply Z.mod_divide in Hal as [q Hq]; lia.
Qed.

Lemma cell_of_region (SB b : Z) (vp p : ptr) :
  0 ≤ SB → SB ≤ b → granule_aligned SB vp →
  address_cast vp ≤ address_cast p < address_cast vp + 2 ^ b →
  pm_index SB (address_cast vp) ≤ pm_index SB (address_cast p)
  < pm_index SB (address_cast vp) + 2 ^ (b - SB).
Proof.
  unfold granule_aligned. intros H0 Hle Hal Hin.
  rewrite SUPERSLAB_SIZE_pow2 in Hal. rewrite !pm_index_div by done.
  assert (0 < 2 ^ SB) as Hpos by (apply Z.pow_pos_nonneg; lia).
  apply Z.mod_divide in Hal as [q Hq]; [|lia]. rewrite Hq in *.
  rewrite Z.div_mul by lia.
  replace b with ((b - SB) + SB) in Hin at 1 by lia.
  rewrite Z.pow_add_r in Hin by lia.
  split.
  - apply Z.div_le_lower_bound; lia.
  - apply Z.div_lt_upper_bound; lia.
Qed.

Lemma pal_getp_stored (SB : Z) (cm : gmap Z ptr) (p : ptr) :
  valid_address p →
  let stored := pm_get NULL SB cm (address_cast p) in
  PalChunkMap.getp SB true cm p = mk_ptr (ptr_auth stored) (address_cast p) ∧
  PalChunkMap.getp SB false cm p
  = pointer_align_down PalChunkMap.PAGEMAP_PTR_ALIGN stored.
Proof.
  intros Hv. cbv zeta. split; [|done].
  unfold PalChunkMap.getp, pointer_offset, pointer_diff, pointer_align_down.
  simpl. f_equal. unfold wrap64 at 1 2. rewrite Zplus_mod_idemp_r.
  replace (_ + (address_cast p - _)) with (address_cast p) by lia.
  by apply wrap64_small.
Qed.

Lemma pal_getp_after_set (SB : Z) (cm : gmap Z ptr) (slab p : ptr) (c : Z) :
  valid_address p → valid_address slab →
  address_cast slab mod 256 = 0 → 0 ≤ c < 256 →
  pm_index SB (address_cast slab) = pm_index SB (address_cast p) →
  PalChunkMap.getp SB true (PalChunkMap.set SB cm slab (pointer_offset slab c)) p
  = mk_ptr (ptr_auth slab) (address_cast p) ∧
  PalChunkMap.getp SB false (PalChunkMap.set SB cm slab (pointer_offset slab c)) p
  = slab.
Proof.
  intros Hv Hvs H256 Hc Hidx.
  destruct (pal_getp_stored SB
              (PalChunkMap.set SB cm slab (pointer_offset slab c)) p Hv)
    as [-> ->].
  unfold PalChunkMap.set, pm_get. rewrite lookup_pm_set.
  rewrite decide_True by done. simpl.
  split; [done | by apply pointer_offset_code].
Qed.

Lemma pal_large_cells (SB : Z) (cm : gmap Z ptr) (vp : ptr) (size j : Z) :
  0 ≤ SB → region_in_address_space vp size → SB ≤ next_pow2_bits size →
  PalChunkMap.set_large_size SB cm vp size !! j
  = if decide (pm_index SB (address_cast vp) + 1 ≤ j
               < pm_index SB (address_cast vp) + 2 ^ (next_pow2_bits size - SB))
    then Some (PalChunkMap.redirect_cell SB vp
                 (Z.log2 (j - pm_index SB (address_cast vp))))
    else if decide (pm_index SB (address_cast vp) = j)
         then Some (pointer_offset vp (next_pow2_bits size))
    else cm !! j.
Proof.
  intros H0 Hfit Hle. unfold PalChunkMap.set_large_size, PalChunkMap.set.
  cbv zeta.
  change (address_cast (pointer_offset vp (SUPERSLAB_SIZE SB)))
    with (wrap64 (address_cast vp + SUPERSLAB_SIZE SB)).
  by apply large_cells.
Qed.

Lemma region_valid_address (vp : ptr) (size : Z) :
  region_in_address_space vp size → valid_address vp.
Proof.
  intros [Hp Hfit]. split; [done|].
  assert (0 < next_pow2 size); [|lia].
  unfold next_pow2. apply Z.pow_pos_nonneg; [lia | apply next_pow2_bits_nonneg].
Qed.

(** C5: [PalChunkMap::getp(p)] reads the capability stored in the cell that
    covers [p] and aligns its address down to [0x100]; with [offset = true] it
    returns a pointer with the authority of the stored capability and the
    address of [p], with [offset = false] the aligned stored capability itself.
    Inside a registered slab or large allocation that capability is the pointer
    the region was registered with, the granule-aligned base of the region. *)
Theorem pal_getp_rederives
    (NDEBUG : bool) (SB : Z) (cm : gmap Z ptr) (p : ptr) :
  valid_address p →
  let stored := pm_get NULL SB cm (address_cast p) in
  (PalChunkMap.getp SB true cm p = mk_ptr (ptr_auth stored) (address_cast p) ∧
   PalChunkMap.getp SB false cm p
   = pointer_align_down PalChunkMap.PAGEMAP_PTR_ALIGN stored) ∧
  (∀ slab : ptr,
     8 ≤ SB → valid_address slab → granule_aligned SB slab →
     address_cast slab ≤ address_cast p < address_cast slab + SUPERSLAB_SIZE SB →
     (∃ cm', PalChunkMap.set_slab_Superslab NDEBUG SB cm slab = Some cm' ∧
             PalChunkMap.getp SB false cm' p = slab ∧
             PalChunkMap.getp SB true cm' p
             = mk_ptr (ptr_auth slab) (address_cast p)) ∧
     (∃ cm', PalChunkMap.set_slab_Mediumslab NDEBUG SB cm slab = Some cm' ∧
             PalChunkMap.getp SB false cm' p = slab ∧
             PalChunkMap.getp SB true cm' p
             = mk_ptr (ptr_auth slab) (address_cast p))) ∧
  (∀ (vp : ptr) (size : Z),
     8 ≤ SB → granule_aligned SB vp →
     region_in_address_space vp size → SB ≤ next_pow2_bits size →
     address_cast vp ≤ address_cast p < address_cast vp + next_pow2 size →
     let cm' := PalChunkMap.set_large_size SB cm vp size in
     PalChunkMap.getp SB false cm' p = vp ∧
     PalChunkMap.getp SB true cm' p = mk_ptr (ptr_auth vp) (address_cast p)).
Proof.
  intros Hv. cbv zeta. split; [by apply pal_getp_stored|]. split.
  - intros slab HSB Hvs Hal Hin.
    assert (pm_index SB (address_cast slab) = pm_index SB (address_cast p)) as Hidx.
    { rewrite SUPERSLAB_SIZE_pow2 in Hin.
      pose proof (cell_of_region SB SB slab p ltac:(lia) ltac:(lia) Hal Hin) as Hc.
      rewrite Z.sub_diag in Hc. simpl in Hc. lia. }
    pose proof (granule_aligned_256 SB slab HSB Hal) as H256.
    unfold PalChunkMap.set_slab_Superslab, PalChunkMap.set_slab_Mediumslab.
    rewrite slab_aligned_true by (done || lia).
    unfold assert_holds. rewrite orb_true_r.
    split; eexists; (split; [done|]);
      rewrite (and_comm (_ = slab)); by apply pal_getp_after_set.
  - intros vp size HSB Hal Hfit Hle Hin.
    pose proof (granule_aligned_256 SB vp HSB Hal) as H256.
    pose proof (region_valid_address vp size Hfit) as Hvv.
    pose proof (region_bits_le vp size Hfit) as Hb.
    pose proof (cell_of_region SB (next_pow2_bits size) vp p
                  ltac:(lia) Hle Hal Hin) as Hcell.
    destruct (pal_getp_stored SB (PalChunkMap.set_large_size SB cm vp size) p Hv)
      as [-> ->].
    unfold pm_get. rewrite pal_large_cells by (done || lia).
    destruct (decide (pm_index SB (address_cast vp) + 1
                      ≤ pm_index SB (address_cast p)
                      < pm_index SB (address_cast vp)
                        + 2 ^ (next_pow2_bits size - SB))) as [Hbody|Hhead].
    + simpl. split; [|done]. unfold PalChunkMap.redirect_cell.
      apply pointer_offset_code; [done|done|].
      assert (0 ≤ Z.log2 (pm_index SB (address_cast p)
                          - pm_index SB (address_cast vp))
              < next_pow2_bits size - SB) as Hlog
        by (apply log2_offset_range; lia).
      rewrite wrap64_small; unfold BITS; lia.
    + rewrite decide_True by lia. simpl. split; [|done].
      apply pointer_offset_code; [done|done|].
      pose proof (next_pow2_bits_nonneg size). lia.
Qed.

Lemma pal_getp_rederives_witness :
  let p := mk_ptr 7%N (address_cast scenario_A + 0x1234) in
  valid_address p ∧
  8 ≤ scenario_BITS ∧
  valid_address scenario_A ∧
  granule_aligned scenario_BITS scenario_A ∧
  address_cast scenario_A ≤ address_cast p
  < address_cast scenario_A + SUPERSLAB_SIZE scenario_BITS ∧
  ∃ cm', PalChunkMap.set_slab_Superslab false scenario_BITS ∅ scenario_A = Some cm' ∧
         PalChunkMap.getp scenario_BITS false cm' p = scenario_A ∧
         PalChunkMap.getp scenario_BITS true cm' p
         = mk_ptr (ptr_auth scenario_A) (address_cast p).
Proof.
  cbv zeta.
  assert (valid_address (mk_ptr 7%N (address_cast scenario_A + 0x1234))) as H1
    by (split; concrete).
  assert (8 ≤ scenario_BITS) as H2 by concrete.
  assert (valid_address scenario_A) as H3 by (split; concrete).
  assert (granule_aligned scenario_BITS scenario_A) as H4 by concrete.
  assert (address_cast scenario_A
          ≤ address_cast (mk_ptr 7%N (address_cast scenario_A + 0x1234))
          < address_cast scenario_A + SUPERSLAB_SIZE scenario_BITS) as H5
    by (split; concrete).
  split; [exact H1|]. split; [exact H2|]. split; [exact H3|].
  split; [exact H4|]. split; [exact H5|].
  destruct (pal_getp_rederives false scenario_BITS ∅ _ H1) as (_ & Hslab & _).
  exact (proj1 (Hslab scenario_A H2 H3 H4 H5)).
Defined.

(** ** Agreement of the two chunk maps *)

Lemma cells_agree_empty : cells_agree ∅ ∅.
Proof. intros j. by rewrite !lookup_empty. Qed.

Lemma cells_agree_get (SB : Z) (pm : gmap Z Z) (cm : gmap Z ptr) (a : Z) :
  cells_agree pm cm → DefaultChunkMap.get SB pm a = PalChunkMap.get SB cm a.
Proof. intros Hag. apply Hag. Qed.

Lemma cells_agree_set (SB : Z) (pm : gmap Z Z) (cm : gmap Z ptr)
    (a x : Z) (y : ptr) :
  cells_agree pm cm → x = uint8 (address_cast y) →
  cells_agree (pm_set SB pm a x) (pm_set SB cm a y).
Proof.
  intros Hag Hx j. rewrite !lookup_pm_set.
  case_decide; [done | apply Hag].
Qed.

Lemma cells_agree_set_range (SB : Z) (pm : gmap Z Z) (cm : gmap Z ptr)
    (a x : Z) (y : ptr) (n : Z) :
  cells_agree pm cm → x = uint8 (address_cast y) →
  cells_agree (pm_set_range SB pm a x n) (pm_set_range SB cm a y n).
Proof.
  intros Hag Hx j. rewrite !lookup_pm_set_range.
  case_decide; [done | apply Hag].
Qed.

Lemma slide_loop_agree (SB : Z) (c1 : Z → Z) (c2 : Z → ptr) (bound : Z) :
  (∀ i, c1 i = uint8 (address_cast (c2 i))) →
  ∀ (fuel : nat) (st1 : slide_state (T:=Z)) (st2 : slide_state (T:=ptr)),
    sl_i st1 = sl_i st2 → sl_ss st1 = sl_ss st2 →
    cells_agree (sl_pm st1) (sl_pm st2) →
    match slide_loop SB c1 fuel bound st1, slide_loop SB c2 fuel bound st2 with
    | Some a, Some b => cells_agree (sl_pm a) (sl_pm b)
    | None, None => True
    | _, _ => False
    end.
Proof.
  intros Hc. induction fuel as [|fuel IH]; intros st1 st2 Hi Hss Hag; simpl.
  - rewrite <- Hi. by destruct (sl_i st1 <? bound).
  - rewrite <- Hi. destruct (sl_i st1 <? bound); [|done].
    apply IH; simpl.
    + by rewrite Hi.
    + by rewrite Hi, Hss.
    + rewrite <- Hi, <- Hss. by apply cells_agree_set_range.
Qed.

Lemma redirect_slide_agree (SB : Z) (c1 : Z → Z) (c2 : Z → ptr)
    (bound ss : Z) (pm : gmap Z Z) (cm : gmap Z ptr) :
  (∀ i, c1 i = uint8 (address_cast (c2 i))) →
  cells_agree pm cm →
  cells_agree (redirect_slide SB c1 bound ss pm) (redirect_slide SB c2 bound ss cm).
Proof.
  intros Hc Hag. unfold redirect_slide.
  pose proof (slide_loop_agree SB c1 c2 bound Hc (Z.to_nat bound)
                (mk_slide 0 ss pm) (mk_slide 0 ss cm) eq_refl eq_refl Hag) as H.
  destruct (slide_loop SB c1 _ _ _), (slide_loop SB c2 _ _ _); done.
Qed.

Lemma pointer_offset_low_byte (p : ptr) (c : Z) :
  address_cast p mod 256 = 0 →
  uint8 (address_cast (pointer_offset p c)) = uint8 c.
Proof.
  intros Hal. unfold pointer_offset, address_cast in *. simpl.
  rewrite uint8_wrap64. by apply uint8_add_aligned.
Qed.

Lemma step_agree (NDEBUG : bool) (SB : Z) (op : chunkmap_op)
    (pm pm' : gmap Z Z) (cm cm' : gmap Z ptr) :
  op_aligned op → cells_agree pm cm →
  default_step NDEBUG SB pm op = Some pm' →
  pal_step NDEBUG SB cm op = Some cm' →
  cells_agree pm' cm'.
Proof.
  unfold op_aligned, PalChunkMap.PAGEMAP_PTR_ALIGN.
  intros Hal Hag Hd Hp. destruct op as [slab|slab|slab|slab|p size|p size];
    simpl in Hal, Hd, Hp.
  - unfold PalChunkMap.set_slab_Superslab in Hp.
    destruct (assert_holds _ _); [|done].
    injection Hd as <-. injection Hp as <-.
    apply cells_agree_set; [done|].
    rewrite pointer_offset_low_byte by done. done.
  - unfold PalChunkMap.set_slab_Mediumslab in Hp.
    destruct (assert_holds _ _); [|done].
    injection Hd as <-. injection Hp as <-.
    apply cells_agree_set; [done|].
    rewrite pointer_offset_low_byte by done. done.
  - unfold DefaultChunkMap.clear_slab_Superslab in Hd.
    unfold PalChunkMap.clear_slab_Superslab in Hp.
    destruct (assert_holds _ _); [|done].
    destruct (assert_holds _ _); [|done].
    injection Hd as <-. injection Hp as <-.
    by apply cells_agree_set.
  - unfold DefaultChunkMap.clear_slab_Mediumslab in Hd.
    unfold PalChunkMap.clear_slab_Mediumslab in Hp.
    destruct (assert_holds _ _); [|done].
    destruct (assert_holds _ _); [|done].
    injection Hd as <-. injection Hp as <-.
    by apply cells_agree_set.
  - injection Hd as <-. injection Hp as <-.
    unfold DefaultChunkMap.set_large_size, PalChunkMap.set_large_size.
    cbv zeta. apply redirect_slide_agree.
    + intros i. unfold DefaultChunkMap.redirect_cell, PalChunkMap.redirect_cell.
      by rewrite pointer_offset_low_byte.
    + apply cells_agree_set; [done|]. by rewrite pointer_offset_low_byte.
  - unfold DefaultChunkMap.clear_large_size in Hd.
    unfold PalChunkMap.clear_large_size in Hp. cbv zeta in Hd, Hp.
    destruct (assert_holds _ _); [|done].
    destruct (assert_holds _ _); [|done].
    injection Hd as <-. injection Hp as <-.
    by apply cells_agree_set_range.
Qed.

(** C10, as stated, fails for a pointer whose low byte is not zero: after
    [set_large_size] of [2^24] bytes at [0x1000001] on empty tables, [get] of
    that address is [24] in the plain chunk map and [(0x1000001 + 24) mod 256
    = 25] in the capability chunk map, which adds the code to the address. *)
Lemma chunk_maps_agree_any_sequence_counterexample :
  let vp := mk_ptr 0%N 0x1000001 in
  let ops := [OpSetLargeSize vp scenario_S] in
  ∃ (pm' : gmap Z Z) (cm' : gmap Z ptr),
    run_ops (default_step false scenario_BITS) ops ∅ = Some pm' ∧
    run_ops (pal_step false scenario_BITS) ops ∅ = Some cm' ∧
    DefaultChunkMap.get scenario_BITS pm' (address_cast vp) = 24 ∧
    PalChunkMap.get scenario_BITS cm' (address_cast vp) = 25 ∧
    DefaultChunkMap.get scenario_BITS pm' (address_cast vp)
    ≠ PalChunkMap.get scenario_BITS cm' (address_cast vp).
Proof.
  cbv zeta. eexists. eexists.
  split; [reflexivity|]. split; [reflexivity|].
  split; [vm_compute; reflexivity|]. split; [vm_compute; reflexivity|].
  vm_compute. discriminate.
Qed.

(** C10 (amended): the plain chunk map and the capability chunk map agree
    through [get] when regions are registered at pointers aligned to
    [PAGEMAP_PTR_ALIGN].  From tables that agree cell by cell (the empty tables
    do, the low byte of the address of [NULL] being [CMNotOurs]), the same
    sequence of [set_slab], [clear_slab], [set_large_size] and
    [clear_large_size] operations, completed by both, leaves tables in which
    [get] returns the same code at every address; a cell never written, or
    cleared, reads as [CMNotOurs] in both. *)
Theorem chunk_maps_agree_through_get
    (NDEBUG : bool) (SB : Z) (ops : list chunkmap_op)
    (pm pm' : gmap Z Z) (cm cm' : gmap Z ptr) :
  cells_agree pm cm →
  Forall op_aligned ops →
  run_ops (default_step NDEBUG SB) ops pm = Some pm' →
  run_ops (pal_step NDEBUG SB) ops cm = Some cm' →
  (∀ a : Z, DefaultChunkMap.get SB pm' a = PalChunkMap.get SB cm' a) ∧
  cells_agree pm' cm' ∧
  cells_agree ∅ ∅ ∧
  uint8 (address_cast NULL) = CMNotOurs ∧
  (∀ a : Z, DefaultChunkMap.get SB ∅ a = CMNotOurs ∧
            PalChunkMap.get SB ∅ a = CMNotOurs) ∧
  (∀ a : Z,
     DefaultChunkMap.get SB (pm_set SB pm' a CMNotOurs) a = CMNotOurs ∧
     PalChunkMap.get SB (pm_set SB cm' a NULL) a = CMNotOurs).
Proof.
  intros Hag Hal Hd Hp.
  assert (cells_agree pm' cm') as Hag'.
  { revert pm cm Hag Hd Hp. induction Hal as [|op ops Hop Hops IH];
      intros pm cm Hag Hd Hp; simpl in Hd, Hp.
    - injection Hd as <-. injection Hp as <-. done.
    - destruct (default_step NDEBUG SB pm op) as [pm1|] eqn:Hd1; [|done].
      destruct (pal_step NDEBUG SB cm op) as [cm1|] eqn:Hp1; [|done].
      apply (IH pm1 cm1); [|done|done].
      by apply (step_agree NDEBUG SB op pm pm1 cm cm1). }
  split; [intros a; by apply cells_agree_get|].
  split; [done|]. split; [apply cells_agree_empty|]. split; [done|].
  split; [intros a; split; reflexivity|].
  intros a. split.
  - rewrite default_get_lookup, lookup_pm_set. by rewrite decide_True.
  - unfold PalChunkMap.get, pm_get. rewrite lookup_pm_set.
    by rewrite decide_True.
Qed.

Lemma chunk_maps_agree_through_get_witness :
  let ops := [OpSetSuperslab scenario_A; OpClearSuperslab scenario_A;
              OpSetLargeSize scenario_A scenario_S;
              OpClearLargeSize scenario_A scenario_S;
              OpSetMediumslab scenario_A] in
  Forall op_aligned ops ∧
  ∃ (pm' : gmap Z Z) (cm' : gmap Z ptr),
    run_ops (default_step false scenario_BITS) ops ∅ = Some pm' ∧
    run_ops (pal_step false scenario_BITS) ops ∅ = Some cm' ∧
    ∀ a : Z, DefaultChunkMap.get scenario_BITS pm' a
             = PalChunkMap.get scenario_BITS cm' a.
Proof.
  cbv zeta.
  assert (Forall op_aligned
            [OpSetSuperslab scenario_A; OpClearSuperslab scenario_A;
             OpSetLargeSize scenario_A scenario_S;
             OpClearLargeSize scenario_A scenario_S;
             OpSetMediumslab scenario_A]) as Hal
    by (repeat constructor; concrete).
  split; [exact Hal|].
  destruct (run_ops (default_step false scenario_BITS)
              [OpSetSuperslab scenario_A; OpClearSuperslab scenario_A;
               OpSetLargeSize scenario_A scenario_S;
               OpClearLargeSize scenario_A scenario_S;
               OpSetMediumslab scenario_A] ∅) as [pm'|] eqn:Hd;
    [|exfalso; vm_compute in Hd; discriminate].
  destruct (run_ops (pal_step false scenario_BITS)
              [OpSetSuperslab scenario_A; OpClearSuperslab scenario_A;
               OpSetLargeSize scenario_A scenario_S;
               OpClearLargeSize scenario_A scenario_S;
               OpSetMediumslab scenario_A] ∅) as [cm'|] eqn:Hp;
    [|exfalso; vm_compute in Hp; discriminate].
  exists pm', cm'. split; [reflexivity|]. split; [reflexivity|].
  exact (proj1 (chunk_maps_agree_through_get false scenario_BITS _ ∅ pm' ∅ cm'
                  cells_agree_empty Hal Hd Hp)).
Defined.

(** * Further properties of the chunk maps *)

(** ** Addresses and cells *)

Lemma pm_index_in_region (SB b p0 a : Z) :
  0 ≤ SB → SB ≤ b → p0 mod 2 ^ SB = 0 →
  (p0 ≤ a < p0 + 2 ^ b
   ↔ pm_index SB p0 ≤ pm_index SB a < pm_index SB p0 + 2 ^ (b - SB)).
Proof.
  intros H0 Hle Hal. rewrite !pm_index_div by done.
  assert (0 < 2 ^ SB) as Hpos by (apply Z.pow_pos_nonneg; lia).
  apply Z.mod_divide in Hal as [q ->]; [|lia].
  rewrite Z.div_mul by lia.
  replace (2 ^ b) with (2 ^ (b - SB) * 2 ^ SB)
    by (rewrite <- Z.pow_add_r by lia; f_equal; lia).
  pose proof (Z.mul_div_le a (2 ^ SB) Hpos).
  pose proof (Z.mul_succ_div_gt a (2 ^ SB) Hpos).
  split; intros [Hlo Hhi].
  - split; [apply Z.div_le_lower_bound | apply Z.div_lt_upper_bound]; lia.
  - split; nia.
Qed.

Lemma pm_index_distance (SB p0 a : Z) :
  0 ≤ SB → p0 mod 2 ^ SB = 0 →
  (a - p0) / SUPERSLAB_SIZE SB = pm_index SB a - pm_index SB p0.
Proof.
  intros H0 Hal. rewrite !pm_index_div, SUPERSLAB_SIZE_pow2 by done.
  assert (0 < 2 ^ SB) as Hpos by (apply Z.pow_pos_nonneg; lia).
  apply Z.mod_divide in Hal as [q ->]; [|lia].
  rewrite Z.div_mul by lia.
  replace (a - q * 2 ^ SB) with (a + (- q) * 2 ^ SB) by lia.
  rewrite Z.div_add by lia. lia.
Qed.

Lemma granule_aligned_mod (SB : Z) (p : ptr) :
  granule_aligned SB p → address_cast p mod 2 ^ SB = 0.
Proof. unfold granule_aligned. by rewrite SUPERSLAB_SIZE_pow2. Qed.

(** ** Large allocations in the plain chunk map, address by address *)

(** X1: registering a large allocation at a granule-aligned [p] changes the
    classification of no address outside [p, p + next_pow2(size)). *)
Theorem set_large_size_frame
    (SB : Z) (pm : gmap Z Z) (p : ptr) (size a : Z) :
  static_assert_disjoint SB →
  granule_aligned SB p →
  region_in_address_space p size →
  SB ≤ next_pow2_bits size →
  ¬ (address_cast p ≤ a < address_cast p + next_pow2 size) →
  DefaultChunkMap.get SB (DefaultChunkMap.set_large_size SB pm p size) a
  = DefaultChunkMap.get SB pm a.
Proof.
  unfold static_assert_disjoint. simpl. intros Hsb Hal Hfit Hle Hout.
  apply granule_aligned_mod in Hal.
  rewrite !default_get_lookup, default_large_cells by (done || lia).
  unfold next_pow2 in Hout.
  rewrite (pm_index_in_region SB (next_pow2_bits size)) in Hout by (done || lia).
  by rewrite !decide_False by lia.
Qed.

Lemma set_large_size_frame_witness :
  static_assert_disjoint scenario_BITS ∧
  granule_aligned scenario_BITS scenario_A ∧
  region_in_address_space scenario_A scenario_S ∧
  scenario_BITS ≤ next_pow2_bits scenario_S ∧
  ¬ (address_cast scenario_A ≤ 0x0ffffff
     < address_cast scenario_A + next_pow2 scenario_S) ∧
  DefaultChunkMap.get scenario_BITS
    (DefaultChunkMap.set_large_size scenario_BITS
       (DefaultChunkMap.set_slab_Superslab scenario_BITS ∅ (mk_ptr 0%N 0x0e00000))
       scenario_A scenario_S) 0x0ffffff
  = DefaultChunkMap.get scenario_BITS
      (DefaultChunkMap.set_slab_Superslab scenario_BITS ∅ (mk_ptr 0%N 0x0e00000))
      0x0ffffff.
Proof.
  assert (static_assert_disjoint scenario_BITS) as H1 by concrete.
  assert (granule_aligned scenario_BITS scenario_A) as H2 by concrete.
  assert (region_in_address_space scenario_A scenario_S) as H3
    by (split; concrete).
  assert (scenario_BITS ≤ next_pow2_bits scenario_S) as H4 by concrete.
  assert (¬ (address_cast scenario_A ≤ 0x0ffffff
             < address_cast scenario_A + next_pow2 scenario_S)) as H5
    by (intros [Hlo _]; revert Hlo; concrete).
  split; [exact H1|]. split; [exact H2|]. split; [exact H3|].
  split; [exact H4|]. split; [exact H5|].
  exact (set_large_size_frame scenario_BITS _ scenario_A scenario_S 0x0ffffff
           H1 H2 H3 H4 H5).
Defined.

(** X2: [set_slab] on a granule-aligned slab classifies every address of its
    granule, not only the base, as [CMSuperslab] (or [CMMediumslab]) and
    leaves the classification of every other address as it was. *)
Theorem set_slab_classifies_granule
    (SB : Z) (pm : gmap Z Z) (slab : ptr) (a : Z) :
  static_assert_disjoint SB →
  granule_aligned SB slab →
  DefaultChunkMap.get SB (DefaultChunkMap.set_slab_Superslab SB pm slab) a
  = (if decide (address_cast slab ≤ a < address_cast slab + SUPERSLAB_SIZE SB)
     then kind_value CMSuperslab else DefaultChunkMap.get SB pm a) ∧
  DefaultChunkMap.get SB (DefaultChunkMap.set_slab_Mediumslab SB pm slab) a
  = (if decide (address_cast slab ≤ a < address_cast slab + SUPERSLAB_SIZE SB)
     then kind_value CMMediumslab else DefaultChunkMap.get SB pm a).
Proof.
  unfold static_assert_disjoint. simpl. intros Hsb Hal.
  apply granule_aligned_mod in Hal.
  unfold DefaultChunkMap.set_slab_Superslab, DefaultChunkMap.set_slab_Mediumslab,
    DefaultChunkMap.set.
  rewrite !default_get_lookup, !lookup_pm_set, SUPERSLAB_SIZE_pow2.
  pose proof (pm_index_in_region SB SB (address_cast slab) a
                ltac:(lia) ltac:(lia) Hal) as Hin.
  rewrite Z.sub_diag in Hin. simpl in Hin.
  split; repeat case_decide; try done; lia.
Qed.

Lemma set_slab_classifies_granule_witness :
  static_assert_disjoint scenario_BITS ∧
  granule_aligned scenario_BITS scenario_A ∧
  DefaultChunkMap.get scenario_BITS
    (DefaultChunkMap.set_slab_Superslab scenario_BITS ∅ scenario_A) 0x11fffff
  = (if decide (address_cast scenario_A ≤ 0x11fffff
                < address_cast scenario_A + SUPERSLAB_SIZE scenario_BITS)
     then kind_value CMSuperslab
     else DefaultChunkMap.get scenario_BITS ∅ 0x11fffff).
Proof.
  assert (static_assert_disjoint scenario_BITS) as H1 by concrete.
  assert (granule_aligned scenario_BITS scenario_A) as H2 by concrete.
  split; [exact H1|]. split; [exact H2|].
  exact (proj1 (set_slab_classifies_granule scenario_BITS ∅ scenario_A
                  0x11fffff H1 H2)).
Defined.

Lemma default_interior_code
    (SB : Z) (pm : gmap Z Z) (p : ptr) (size a : Z) :
  2 < SB →
  granule_aligned SB p →
  region_in_address_space p size →
  SB ≤ next_pow2_bits size →
  address_cast p ≤ a < address_cast p + next_pow2 size →
  DefaultChunkMap.get SB (DefaultChunkMap.set_large_size SB pm p size) a
  = (if decide ((a - address_cast p) / SUPERSLAB_SIZE SB = 0)
     then next_pow2_bits size
     else 64 + Z.log2 ((a - address_cast p) / SUPERSLAB_SIZE SB) + SB).
Proof.
  intros Hsb Hal Hfit Hle Hin.
  apply granule_aligned_mod in Hal.
  rewrite pm_index_distance by (done || lia).
  rewrite default_get_lookup, default_large_cells by (done || lia).
  unfold next_pow2 in Hin.
  rewrite (pm_index_in_region SB (next_pow2_bits size)) in Hin by (done || lia).
  destruct (decide (pm_index SB a - pm_index SB (address_cast p) = 0)) as [Hk|Hk].
  - rewrite decide_False by lia. by rewrite decide_True by lia.
  - by rewrite decide_True by lia.
Qed.

(** X3: after [set_large_size] at a granule-aligned [p], an address [a] inside
    [p, p + next_pow2(size)) reads [next_pow2_bits(size)] when it lies in the
    first granule and otherwise [64 + log2 k + SUPERSLAB_BITS], [k] being the
    number of whole granules between [p] and [a]; no such address reads as one
    of the three tags. *)
Theorem set_large_size_interior
    (SB : Z) (pm : gmap Z Z) (p : ptr) (size a : Z) :
  static_assert_disjoint SB →
  granule_aligned SB p →
  region_in_address_space p size →
  SB ≤ next_pow2_bits size →
  address_cast p ≤ a < address_cast p + next_pow2 size →
  let x := DefaultChunkMap.get SB (DefaultChunkMap.set_large_size SB pm p size) a in
  let k := (a - address_cast p) / SUPERSLAB_SIZE SB in
  x = (if decide (k = 0) then next_pow2_bits size else 64 + Z.log2 k + SB) ∧
  ∀ tag : ChunkMapSuperslabKind, x ≠ kind_value tag.
Proof.
  unfold static_assert_disjoint. simpl. intros Hsb Hal Hfit Hle Hin. cbv zeta.
  rewrite default_interior_code by done. split; [done|].
  pose proof (Z.log2_nonneg ((a - address_cast p) / SUPERSLAB_SIZE SB)).
  intros []; simpl; case_decide; lia.
Qed.

Lemma set_large_size_interior_witness :
  let x := DefaultChunkMap.get scenario_BITS
             (DefaultChunkMap.set_large_size scenario_BITS ∅ scenario_A scenario_S)
             0x1a12345 in
  static_assert_disjoint scenario_BITS ∧
  granule_aligned scenario_BITS scenario_A ∧
  region_in_address_space scenario_A scenario_S ∧
  scenario_BITS ≤ next_pow2_bits scenario_S ∧
  address_cast scenario_A ≤ 0x1a12345
  < address_cast scenario_A + next_pow2 scenario_S ∧
  ∀ tag : ChunkMapSuperslabKind, x ≠ kind_value tag.
Proof.
  assert (static_assert_disjoint scenario_BITS) as H1 by concrete.
  assert (granule_aligned scenario_BITS scenario_A) as H2 by concrete.
  assert (region_in_address_space scenario_A scenario_S) as H3
    by (split; concrete).
  assert (scenario_BITS ≤ next_pow2_bits scenario_S) as H4 by concrete.
  assert (address_cast scenario_A ≤ 0x1a12345
          < address_cast scenario_A + next_pow2 scenario_S) as H5
    by (split; concrete).
  cbv zeta. split; [exact H1|]. split; [exact H2|]. split; [exact H3|].
  split; [exact H4|]. split; [exact H5|].
  exact (proj2 (set_large_size_interior scenario_BITS ∅ scenario_A scenario_S
                  0x1a12345 H1 H2 H3 H4 H5)).
Defined.

(** X4: a redirect leads towards the head and never past it.  For an address
    [a] of a registered large allocation that lies beyond the first granule
    and reads the code [x], the address [a - 2^(x-64)] is still inside the
    allocation, at or above [p], and the code read there is smaller than
    [x]. *)
Theorem redirect_leads_towards_head
    (SB : Z) (pm : gmap Z Z) (p : ptr) (size a : Z) :
  static_assert_disjoint SB →
  granule_aligned SB p →
  region_in_address_space p size →
  SB ≤ next_pow2_bits size →
  address_cast p + SUPERSLAB_SIZE SB ≤ a < address_cast p + next_pow2 size →
  let registered := DefaultChunkMap.set_large_size SB pm p size in
  let x := DefaultChunkMap.get SB registered a in
  is_redirect_code x ∧
  address_cast p ≤ a - 2 ^ (x - 64) < a ∧
  DefaultChunkMap.get SB registered (a - 2 ^ (x - 64)) < x.
Proof.
  unfold static_assert_disjoint. simpl. intros Hsb Hal Hfit Hle Hin. cbv zeta.
  assert (0 < 2 ^ SB) as Hpos by (apply Z.pow_pos_nonneg; lia).
  pose proof (region_bits_le p size Hfit) as Hb.
  rewrite SUPERSLAB_SIZE_pow2 in Hin.
  pose proof (default_interior_code SB pm p size a Hsb Hal Hfit Hle
                ltac:(lia)) as Hx.
  set (k := (a - address_cast p) / SUPERSLAB_SIZE SB) in *.
  assert (1 ≤ k < 2 ^ (next_pow2_bits size - SB)) as Hk.
  { unfold k. rewrite SUPERSLAB_SIZE_pow2. split.
    - apply Z.div_le_lower_bound; lia.
    - apply Z.div_lt_upper_bound; [lia|].
      rewrite <- Z.pow_add_r by lia.
      replace (SB + (next_pow2_bits size - SB)) with (next_pow2_bits size) by lia.
      unfold next_pow2 in Hin. lia. }
  rewrite decide_False in Hx by lia. rewrite Hx.
  pose proof (log2_offset_range k _ Hk) as Hlog.
  pose proof (Z.log2_spec k ltac:(lia)) as Hspec.
  replace (64 + Z.log2 k + SB - 64) with (Z.log2 k + SB) by lia.
  rewrite Z.pow_add_r by lia.
  assert (0 < 2 ^ Z.log2 k) as Hpk by (apply Z.pow_pos_nonneg; lia).
  assert (k * 2 ^ SB ≤ a - address_cast p < (k + 1) * 2 ^ SB) as Hka.
  { unfold k. rewrite SUPERSLAB_SIZE_pow2.
    pose proof (Z.mul_div_le (a - address_cast p) (2 ^ SB) Hpos).
    pose proof (Z.mul_succ_div_gt (a - address_cast p) (2 ^ SB) Hpos).
    lia. }
  assert (Z.succ (Z.log2 k) = Z.log2 k + 1) as Hs by lia.
  rewrite Hs, Z.pow_add_r in Hspec by lia.
  split; [unfold is_redirect_code; lia|].
  split; [nia|].
  pose proof (default_interior_code SB pm p size (a - 2 ^ Z.log2 k * 2 ^ SB)
                Hsb Hal Hfit Hle ltac:(unfold next_pow2 in *; nia)) as Hx'.
  rewrite Hx'. clear Hx'.
  set (k' := (a - 2 ^ Z.log2 k * 2 ^ SB - address_cast p) / SUPERSLAB_SIZE SB).
  assert (0 ≤ k' < 2 ^ Z.log2 k) as Hk'.
  { unfold k'. rewrite SUPERSLAB_SIZE_pow2. split.
    - apply Z.div_pos; [nia | lia].
    - apply Z.div_lt_upper_bound; [lia | nia]. }
  case_decide; [lia|].
  assert (Z.log2 k' < Z.log2 k); [|lia].
  apply Z.log2_lt_pow2; lia.
Qed.

Lemma redirect_leads_towards_head_witness :
  let registered :=
    DefaultChunkMap.set_large_size scenario_BITS ∅ scenario_A scenario_S in
  let x := DefaultChunkMap.get scenario_BITS registered 0x1a12345 in
  static_assert_disjoint scenario_BITS ∧
  granule_aligned scenario_BITS scenario_A ∧
  region_in_address_space scenario_A scenario_S ∧
  scenario_BITS ≤ next_pow2_bits scenario_S ∧
  address_cast scenario_A + SUPERSLAB_SIZE scenario_BITS ≤ 0x1a12345
  < address_cast scenario_A + next_pow2 scenario_S ∧
  address_cast scenario_A ≤ 0x1a12345 - 2 ^ (x - 64) < 0x1a12345 ∧
  DefaultChunkMap.get scenario_BITS registered (0x1a12345 - 2 ^ (x - 64)) < x.
Proof.
  assert (static_assert_disjoint scenario_BITS) as H1 by concrete.
  assert (granule_aligned scenario_BITS scenario_A) as H2 by concrete.
  assert (region_in_address_space scenario_A scenario_S) as H3
    by (split; concrete).
  assert (scenario_BITS ≤ next_pow2_bits scenario_S) as H4 by concrete.
  assert (address_cast scenario_A + SUPERSLAB_SIZE scenario_BITS ≤ 0x1a12345
          < address_cast scenario_A + next_pow2 scenario_S) as H5
    by (split; concrete).
  cbv zeta. split; [exact H1|]. split; [exact H2|]. split; [exact H3|].
  split; [exact H4|]. split; [exact H5|].
  exact (proj2 (redirect_leads_towards_head scenario_BITS ∅ scenario_A
                  scenario_S 0x1a12345 H1 H2 H3 H4 H5)).
Defined.

(** ** Misuse caught by the assertions of the plain chunk map *)

(** X5: with assertions checked, a slab cannot be unregistered twice nor as
    the other kind: after a successful [clear_slab] a second [clear_slab] of
    either kind aborts, and [clear_slab] for a superslab aborts on a cell
    registered by [set_slab] for a medium slab, and conversely.  With [NDEBUG]
    all of these go through. *)
Theorem clear_slab_misuse_aborts
    (SB : Z) (pm pm1 : gmap Z Z) (slab : ptr) :
  (DefaultChunkMap.clear_slab_Superslab false SB pm slab = Some pm1 ∨
   DefaultChunkMap.clear_slab_Mediumslab false SB pm slab = Some pm1 →
   DefaultChunkMap.clear_slab_Superslab false SB pm1 slab = None ∧
   DefaultChunkMap.clear_slab_Mediumslab false SB pm1 slab = None) ∧
  DefaultChunkMap.clear_slab_Superslab false SB
    (DefaultChunkMap.set_slab_Mediumslab SB pm slab) slab = None ∧
  DefaultChunkMap.clear_slab_Mediumslab false SB
    (DefaultChunkMap.set_slab_Superslab SB pm slab) slab = None ∧
  is_Some (DefaultChunkMap.clear_slab_Superslab true SB pm slab) ∧
  is_Some (DefaultChunkMap.clear_slab_Mediumslab true SB pm slab).
Proof.
  unfold DefaultChunkMap.clear_slab_Superslab, DefaultChunkMap.clear_slab_Mediumslab,
    DefaultChunkMap.set_slab_Superslab, DefaultChunkMap.set_slab_Mediumslab,
    assert_holds.
  rewrite !orb_false_l, !orb_true_l, !default_get_set. simpl.
  split; [|by repeat split].
  assert (Some (DefaultChunkMap.set SB pm slab 0) = Some pm1 →
          (if DefaultChunkMap.get_ptr SB pm1 slab =? 1 then
             Some (DefaultChunkMap.set SB pm1 slab 0) else None) = None ∧
          (if DefaultChunkMap.get_ptr SB pm1 slab =? 2 then
             Some (DefaultChunkMap.set SB pm1 slab 0) else None) = None) as Hset.
  { intros [= <-]. by rewrite default_get_set. }
  intros [H|H].
  - destruct (DefaultChunkMap.get_ptr SB pm slab =? 1); [by apply Hset | done].
  - destruct (DefaultChunkMap.get_ptr SB pm slab =? 2); [by apply Hset | done].
Qed.

Lemma clear_slab_misuse_aborts_witness :
  DefaultChunkMap.clear_slab_Superslab false scenario_BITS
    (DefaultChunkMap.set_slab_Superslab scenario_BITS ∅ scenario_A) scenario_A
  = Some (DefaultChunkMap.set scenario_BITS
            (DefaultChunkMap.set_slab_Superslab scenario_BITS ∅ scenario_A)
            scenario_A CMNotOurs) ∧
  DefaultChunkMap.clear_slab_Superslab false scenario_BITS
    (DefaultChunkMap.set scenario_BITS
       (DefaultChunkMap.set_slab_Superslab scenario_BITS ∅ scenario_A)
       scenario_A CMNotOurs) scenario_A = None.
Proof.
  assert (DefaultChunkMap.clear_slab_Superslab false scenario_BITS
            (DefaultChunkMap.set_slab_Superslab scenario_BITS ∅ scenario_A)
            scenario_A
          = Some (DefaultChunkMap.set scenario_BITS
                    (DefaultChunkMap.set_slab_Superslab scenario_BITS ∅ scenario_A)
                    scenario_A CMNotOurs)) as H by (vm_compute; reflexivity).
  split; [exact H|].
  exact (proj1 (proj1 (clear_slab_misuse_aborts scenario_BITS _ _ scenario_A)
                  (or_introl H))).
Defined.

Lemma default_head_after_clear (SB : Z) (pm : gmap Z Z) (p : ptr) (size : Z) :
  0 ≤ SB → SB ≤ next_pow2_bits size → next_pow2 size < 2 ^ BITS →
  DefaultChunkMap.get_ptr SB
    (pm_set_range SB pm (address_cast p) CMNotOurs
       (Z.shiftr (wrap64 (next_pow2 size)) SB)) p = 0.
Proof.
  intros H0 Hle Hlt. unfold DefaultChunkMap.get_ptr.
  rewrite default_get_lookup, lookup_pm_set_range, count_cells by done.
  assert (0 < 2 ^ (next_pow2_bits size - SB)) by (apply Z.pow_pos_nonneg; lia).
  by rewrite decide_True by lia.
Qed.

(** X6: with assertions checked, [clear_large_size] catches a wrong size and a
    second release.  After [set_large_size(p, size)], a [clear_large_size(p,
    size')] aborts when [next_pow2_bits(size')] differs from
    [next_pow2_bits(size)] and does the same as [clear_large_size(p, size)]
    when they are equal; after a successful release of a size of at least one
    granule a second one aborts. *)
Theorem clear_large_size_misuse_aborts
    (SB : Z) (pm pm1 : gmap Z Z) (p : ptr) (size size' : Z) :
  static_assert_disjoint SB →
  region_in_address_space p size →
  SB ≤ next_pow2_bits size →
  next_pow2 size < 2 ^ BITS →
  let registered := DefaultChunkMap.set_large_size SB pm p size in
  (next_pow2_bits size' ≠ next_pow2_bits size →
   DefaultChunkMap.clear_large_size false SB registered p size' = None) ∧
  (next_pow2_bits size' = next_pow2_bits size →
   DefaultChunkMap.clear_large_size false SB registered p size'
   = DefaultChunkMap.clear_large_size false SB registered p size) ∧
  (DefaultChunkMap.clear_large_size false SB registered p size = Some pm1 →
   DefaultChunkMap.clear_large_size false SB pm1 p size = None).
Proof.
  unfold static_assert_disjoint. simpl. intros Hsb Hfit Hle Hlt. cbv zeta.
  assert (0 ≤ SB) as H0 by lia.
  pose proof (default_head_after_set_large_size SB pm p size H0 Hfit Hle) as Hhead.
  unfold DefaultChunkMap.get_ptr in Hhead.
  unfold DefaultChunkMap.clear_large_size, assert_holds. cbv zeta.
  rewrite !orb_false_l, Hhead, Z.eqb_refl.
  split; [|split].
  - intros Hne. by rewrite (proj2 (Z.eqb_neq _ _)) by done.
  - intros Heq. unfold next_pow2. by rewrite Heq, Z.eqb_refl.
  - intros [= <-].
    pose proof (default_head_after_clear SB
                  (DefaultChunkMap.set_large_size SB pm p size) p size
                  H0 Hle Hlt) as Hzero.
    unfold DefaultChunkMap.get_ptr in Hzero.
    change (kind_value CMNotOurs) with 0 in Hzero. rewrite Hzero.
    by rewrite (proj2 (Z.eqb_neq _ _)) by lia.
Qed.

Lemma clear_large_size_misuse_aborts_witness :
  static_assert_disjoint scenario_BITS ∧
  region_in_address_space scenario_A scenario_S ∧
  scenario_BITS ≤ next_pow2_bits scenario_S ∧
  next_pow2 scenario_S < 2 ^ BITS ∧
  next_pow2_bits (2 ^ 23) ≠ next_pow2_bits scenario_S ∧
  DefaultChunkMap.clear_large_size false scenario_BITS
    (DefaultChunkMap.set_large_size scenario_BITS ∅ scenario_A scenario_S)
    scenario_A (2 ^ 23) = None.
Proof.
  assert (static_assert_disjoint scenario_BITS) as H1 by concrete.
  assert (region_in_address_space scenario_A scenario_S) as H2
    by (split; concrete).
  assert (scenario_BITS ≤ next_pow2_bits scenario_S) as H3 by concrete.
  assert (next_pow2 scenario_S < 2 ^ BITS) as H4 by concrete.
  assert (next_pow2_bits (2 ^ 23) ≠ next_pow2_bits scenario_S) as H5 by concrete.
  split; [exact H1|]. split; [exact H2|]. split; [exact H3|].
  split; [exact H4|]. split; [exact H5|].
  exact (proj1 (clear_large_size_misuse_aborts scenario_BITS ∅ ∅ scenario_A
                  scenario_S (2 ^ 23) H1 H2 H3 H4) H5).
Defined.

(** ** Sizes of at most one granule *)

(** X7: [set_large_size] has no guard on the size.  When
    [next_pow2_bits(size)] equals [SUPERSLAB_BITS] the loop does not run and
    only the head cell is written; when it is smaller, the unsigned loop bound
    wraps around to [2^64 - (SUPERSLAB_BITS - next_pow2_bits(size))]. *)
Theorem set_large_size_small_sizes
    (SB : Z) (pm : gmap Z Z) (p : ptr) (size : Z) :
  static_assert_disjoint SB →
  SB ≤ 64 →
  (next_pow2_bits size = SB →
   DefaultChunkMap.set_large_size SB pm p size = DefaultChunkMap.set SB pm p SB) ∧
  (next_pow2_bits size < SB →
   slide_bound SB size = 2 ^ 64 - (SB - next_pow2_bits size) ∧
   2 ^ 63 < slide_bound SB size).
Proof.
  unfold static_assert_disjoint. simpl. intros Hsb H64. split.
  - intros Heq. unfold DefaultChunkMap.set_large_size, slide_bound. cbv zeta.
    rewrite Heq, Z.sub_diag. rewrite (uint8_small SB) by lia.
    reflexivity.
  - intros Hlt. pose proof (next_pow2_bits_nonneg size) as Hb.
    assert (slide_bound SB size = 2 ^ 64 - (SB - next_pow2_bits size)) as ->.
    { unfold slide_bound, wrap64, BITS.
      replace (next_pow2_bits size - SB)
        with (2 ^ 64 - (SB - next_pow2_bits size) + (-1) * 2 ^ 64) by lia.
      rewrite Z.mod_add by lia. apply Z.mod_small. lia. }
    split; [done | lia].
Qed.

Lemma set_large_size_small_sizes_witness :
  static_assert_disjoint scenario_BITS ∧
  scenario_BITS ≤ 64 ∧
  next_pow2_bits 4096 < scenario_BITS ∧
  slide_bound scenario_BITS 4096 = 2 ^ 64 - (scenario_BITS - next_pow2_bits 4096).
Proof.
  assert (static_assert_disjoint scenario_BITS) as H1 by concrete.
  assert (scenario_BITS ≤ 64) as H2 by concrete.
  assert (next_pow2_bits 4096 < scenario_BITS) as H3 by concrete.
  split; [exact H1|]. split; [exact H2|]. split; [exact H3|].
  exact (proj1 (proj2 (set_large_size_small_sizes scenario_BITS ∅ scenario_A
                         4096 H1 H2) H3)).
Defined.

(** ** The capability chunk map *)

Lemma pal_get_lookup (SB : Z) (cm : gmap Z ptr) (a : Z) :
  PalChunkMap.get SB cm a
  = uint8 (address_cast (default NULL (cm !! pm_index SB a))).
Proof. reflexivity. Qed.

Lemma slab_aligned_spec (SB : Z) (slab : ptr) :
  0 ≤ SB →
  PalChunkMap.slab_aligned SB slab = true
  ↔ address_cast slab mod SUPERSLAB_SIZE SB = 0.
Proof.
  intros H0. split; [|by apply slab_aligned_true].
  unfold PalChunkMap.slab_aligned. intros Hal.
  apply bool_decide_eq_true in Hal. destruct slab as [auth addr].
  unfold pointer_align_down in Hal. simpl in *. injection Hal as Hal.
  rewrite SUPERSLAB_SIZE_pow2 in *. rewrite align_down_pow2 in Hal by done.
  assert (2 ^ SB ≠ 0) by (apply Z.pow_nonzero; lia).
  apply Z.mod_divide; [done|]. exists (addr / 2 ^ SB). lia.
Qed.

Lemma pal_getp_null (SB : Z) (cm : gmap Z ptr) (q : ptr) :
  valid_address q →
  cm !! pm_index SB (address_cast q) = None ∨
  cm !! pm_index SB (address_cast q) = Some NULL →
  PalChunkMap.getp SB false cm q = NULL ∧
  PalChunkMap.getp SB true cm q = mk_ptr 0%N (address_cast q).
Proof.
  intros Hv Hcell. destruct (pal_getp_stored SB cm q Hv) as [-> ->].
  unfold pm_get. by destruct Hcell as [-> | ->].
Qed.

(** X8: the life of a slab in the capability chunk map.  For a granule-aligned
    slab ([SUPERSLAB_BITS >= 8]) [set_slab] passes its assertion and every
    address of the granule then reads [CMSuperslab] ([CMMediumslab] for a
    medium slab); [clear_slab] passes too, after which every address of the
    granule reads [CMNotOurs] and [getp] yields [NULL], respectively a pointer
    without authority: the stored capability is gone.  Addresses outside the
    granule read as before throughout. *)
Theorem pal_slab_lifecycle
    (NDEBUG : bool) (SB : Z) (cm : gmap Z ptr) (slab q : ptr) :
  8 ≤ SB → valid_address slab → granule_aligned SB slab → valid_address q →
  let inside (a : Z) :=
    address_cast slab ≤ a < address_cast slab + SUPERSLAB_SIZE SB in
  (∃ cm1 cm2,
     PalChunkMap.set_slab_Superslab NDEBUG SB cm slab = Some cm1 ∧
     PalChunkMap.clear_slab_Superslab NDEBUG SB cm1 slab = Some cm2 ∧
     (∀ a, PalChunkMap.get SB cm1 a
           = if decide (inside a) then kind_value CMSuperslab
             else PalChunkMap.get SB cm a) ∧
     (∀ a, PalChunkMap.get SB cm2 a
           = if decide (inside a) then kind_value CMNotOurs
             else PalChunkMap.get SB cm a) ∧
     (inside (address_cast q) →
      PalChunkMap.getp SB false cm2 q = NULL ∧
      PalChunkMap.getp SB true cm2 q = mk_ptr 0%N (address_cast q))) ∧
  (∃ cm1 cm2,
     PalChunkMap.set_slab_Mediumslab NDEBUG SB cm slab = Some cm1 ∧
     PalChunkMap.clear_slab_Mediumslab NDEBUG SB cm1 slab = Some cm2 ∧
     (∀ a, PalChunkMap.get SB cm1 a
           = if decide (inside a) then kind_value CMMediumslab
             else PalChunkMap.get SB cm a) ∧
     (∀ a, PalChunkMap.get SB cm2 a
           = if decide (inside a) then kind_value CMNotOurs
             else PalChunkMap.get SB cm a) ∧
     (inside (address_cast q) →
      PalChunkMap.getp SB false cm2 q = NULL ∧
      PalChunkMap.getp SB true cm2 q = mk_ptr 0%N (address_cast q))).
Proof.
  intros HSB Hvs Hal Hvq. cbv zeta.
  pose proof (granule_aligned_256 SB slab HSB Hal) as H256.
  pose proof (granule_aligned_mod SB slab Hal) as Hmod.
  assert (∀ a, address_cast slab ≤ a < address_cast slab + SUPERSLAB_SIZE SB
               ↔ pm_index SB (address_cast slab) = pm_index SB a) as Hin.
  { intros a. rewrite SUPERSLAB_SIZE_pow2.
    rewrite (pm_index_in_region SB SB) by (done || lia).
    rewrite Z.sub_diag. simpl. lia. }
  unfold PalChunkMap.set_slab_Superslab, PalChunkMap.clear_slab_Superslab,
    PalChunkMap.set_slab_Mediumslab, PalChunkMap.clear_slab_Mediumslab.
  rewrite slab_aligned_true by (done || lia).
  unfold assert_holds. rewrite orb_true_r.
  split; (eexists; eexists; split; [done|]; split; [done|]; split; [|split]).
  1, 4: intros a; unfold PalChunkMap.set; rewrite !pal_get_lookup, lookup_pm_set;
    destruct (decide (pm_index SB (address_cast slab) = pm_index SB a)) as [Hi|Hi];
    [ rewrite decide_True by (by apply Hin); cbn [default from_option id];
      rewrite pointer_offset_low_byte by done; done
    | rewrite decide_False by (by rewrite Hin); done ].
  1, 3: intros a; unfold PalChunkMap.set; rewrite !pal_get_lookup, !lookup_pm_set;
    destruct (decide (pm_index SB (address_cast slab) = pm_index SB a)) as [Hi|Hi];
    [ rewrite decide_True by (by apply Hin); done
    | rewrite decide_False by (by rewrite Hin); done ].
  all: intros Hq; apply pal_getp_null; [done|]; right;
    unfold PalChunkMap.set; rewrite lookup_pm_set;
    by rewrite decide_True by (by apply Hin).
Qed.

Lemma pal_slab_lifecycle_witness :
  let q := mk_ptr 7%N (address_cast scenario_A + 0x1234) in
  8 ≤ scenario_BITS ∧
  valid_address scenario_A ∧
  granule_aligned scenario_BITS scenario_A ∧
  valid_address q ∧
  ∃ cm1 cm2,
    PalChunkMap.set_slab_Superslab false scenario_BITS ∅ scenario_A = Some cm1 ∧
    PalChunkMap.clear_slab_Superslab false scenario_BITS cm1 scenario_A = Some cm2 ∧
    (∀ a, PalChunkMap.get scenario_BITS cm1 a
          = if decide (address_cast scenario_A ≤ a
                       < address_cast scenario_A + SUPERSLAB_SIZE scenario_BITS)
            then kind_value CMSuperslab
            else PalChunkMap.get scenario_BITS ∅ a).
Proof.
  cbv zeta.
  assert (8 ≤ scenario_BITS) as H1 by concrete.
  assert (valid_address scenario_A) as H2 by (split; concrete).
  assert (granule_aligned scenario_BITS scenario_A) as H3 by concrete.
  assert (valid_address (mk_ptr 7%N (address_cast scenario_A + 0x1234))) as H4
    by (split; concrete).
  split; [exact H1|]. split; [exact H2|]. split; [exact H3|]. split; [exact H4|].
  destruct (pal_slab_lifecycle false scenario_BITS ∅ scenario_A _ H1 H2 H3 H4)
    as [(cm1 & cm2 & Hset & Hclear & Hget & _) _].
  exists cm1, cm2. split; [exact Hset|]. split; [exact Hclear | exact Hget].
Defined.

(** X9: with assertions checked, each of the four slab operations of the
    capability chunk map aborts exactly when the slab pointer is not aligned to
    [SUPERSLAB_SIZE]; with [NDEBUG] none of them aborts. *)
Theorem pal_slab_alignment_guard (SB : Z) (cm : gmap Z ptr) (slab : ptr) :
  0 ≤ SB →
  let unaligned := address_cast slab mod SUPERSLAB_SIZE SB ≠ 0 in
  (PalChunkMap.set_slab_Superslab false SB cm slab = None ↔ unaligned) ∧
  (PalChunkMap.clear_slab_Superslab false SB cm slab = None ↔ unaligned) ∧
  (PalChunkMap.set_slab_Mediumslab false SB cm slab = None ↔ unaligned) ∧
  (PalChunkMap.clear_slab_Mediumslab false SB cm slab = None ↔ unaligned) ∧
  is_Some (PalChunkMap.set_slab_Superslab true SB cm slab) ∧
  is_Some (PalChunkMap.clear_slab_Superslab true SB cm slab) ∧
  is_Some (PalChunkMap.set_slab_Mediumslab true SB cm slab) ∧
  is_Some (PalChunkMap.clear_slab_Mediumslab true SB cm slab).
Proof.
  intros H0. cbv zeta.
  unfold PalChunkMap.set_slab_Superslab, PalChunkMap.clear_slab_Superslab,
    PalChunkMap.set_slab_Mediumslab, PalChunkMap.clear_slab_Mediumslab,
    assert_holds.
  rewrite !orb_false_l, !orb_true_l.
  pose proof (slab_aligned_spec SB slab H0) as Hspec.
  destruct (PalChunkMap.slab_aligned SB slab).
  - assert (address_cast slab mod SUPERSLAB_SIZE SB = 0) as Hal by (by apply Hspec).
    repeat split; try done; intros; by eexists.
  - assert (address_cast slab mod SUPERSLAB_SIZE SB ≠ 0) as Hal.
    { intros Hal. apply Hspec in Hal. done. }
    repeat split; try done; intros; by eexists.
Qed.

Lemma pal_slab_alignment_guard_witness :
  0 ≤ scenario_BITS ∧
  (PalChunkMap.set_slab_Superslab false scenario_BITS ∅ (mk_ptr 0%N 0x1000100) = None
   ↔ address_cast (mk_ptr 0%N 0x1000100) mod SUPERSLAB_SIZE scenario_BITS ≠ 0).
Proof.
  assert (0 ≤ scenario_BITS) as H0 by concrete.
  split; [exact H0|].
  exact (proj1 (pal_slab_alignment_guard scenario_BITS ∅ (mk_ptr 0%N 0x1000100) H0)).
Defined.

Lemma pal_redirect_cell_low_byte (SB b i : Z) (vp : ptr) :
  0 ≤ SB → b ≤ 64 → 0 ≤ i < b - SB → address_cast vp mod 256 = 0 →
  uint8 (address_cast (PalChunkMap.redirect_cell SB vp i)) = 64 + i + SB.
Proof.
  intros H0 Hb Hi Hal. unfold PalChunkMap.redirect_cell.
  rewrite pointer_offset_low_byte by done.
  rewrite uint8_wrap64. apply uint8_small. lia.
Qed.

Lemma pal_interior_code
    (SB : Z) (cm : gmap Z ptr) (vp : ptr) (size a : Z) :
  8 ≤ SB →
  granule_aligned SB vp →
  region_in_address_space vp size →
  SB ≤ next_pow2_bits size →
  let x := PalChunkMap.get SB (PalChunkMap.set_large_size SB cm vp size) a in
  let k := (a - address_cast vp) / SUPERSLAB_SIZE SB in
  (address_cast vp ≤ a < address_cast vp + next_pow2 size →
   x = (if decide (k = 0) then next_pow2_bits size else 64 + Z.log2 k + SB)) ∧
  (¬ (address_cast vp ≤ a < address_cast vp + next_pow2 size) →
   x = PalChunkMap.get SB cm a).
Proof.
  intros HSB Hal Hfit Hle. cbv zeta.
  pose proof (granule_aligned_256 SB vp HSB Hal) as H256.
  pose proof (granule_aligned_mod SB vp Hal) as Hmod.
  pose proof (region_bits_le vp size Hfit) as Hb.
  pose proof (next_pow2_bits_nonneg size) as Hb0.
  rewrite pm_index_distance by (done || lia).
  rewrite !pal_get_lookup, pal_large_cells by (done || lia).
  unfold next_pow2.
  rewrite (pm_index_in_region SB (next_pow2_bits size)) by (done || lia).
  split; intros Hin.
  - destruct (decide (pm_index SB a - pm_index SB (address_cast vp) = 0)) as [Hk|Hk].
    + rewrite decide_False by lia. rewrite decide_True by lia.
      cbn [default from_option id].
      rewrite pointer_offset_low_byte by done. apply uint8_small. lia.
    + rewrite decide_True by lia. cbn [default from_option id].
      apply (pal_redirect_cell_low_byte SB (next_pow2_bits size)); try done; [lia|].
      apply log2_offset_range. lia.
  - by rewrite !decide_False by lia.
Qed.

(** X10: a large allocation registered in the capability chunk map at a
    granule-aligned pointer ([SUPERSLAB_BITS >= 8]) is classified address by
    address as in the plain chunk map: [next_pow2_bits(size)] in the first
    granule, [64 + log2 k + SUPERSLAB_BITS] at [k >= 1] whole granules from
    the start, and as before the registration outside the allocation. *)
Theorem pal_set_large_size_classification
    (SB : Z) (cm : gmap Z ptr) (vp : ptr) (size a : Z) :
  8 ≤ SB →
  granule_aligned SB vp →
  region_in_address_space vp size →
  SB ≤ next_pow2_bits size →
  let x := PalChunkMap.get SB (PalChunkMap.set_large_size SB cm vp size) a in
  let k := (a - address_cast vp) / SUPERSLAB_SIZE SB in
  (address_cast vp ≤ a < address_cast vp + next_pow2 size →
   x = (if decide (k = 0) then next_pow2_bits size else 64 + Z.log2 k + SB)) ∧
  (¬ (address_cast vp ≤ a < address_cast vp + next_pow2 size) →
   x = PalChunkMap.get SB cm a).
Proof.
  intros HSB Hal Hfit Hle. by apply pal_interior_code.
Qed.

Lemma pal_set_large_size_classification_witness :
  8 ≤ scenario_BITS ∧
  granule_aligned scenario_BITS scenario_A ∧
  region_in_address_space scenario_A scenario_S ∧
  scenario_BITS ≤ next_pow2_bits scenario_S ∧
  address_cast scenario_A ≤ 0x1a12345
  < address_cast scenario_A + next_pow2 scenario_S ∧
  PalChunkMap.get scenario_BITS
    (PalChunkMap.set_large_size scenario_BITS ∅ scenario_A scenario_S) 0x1a12345
  = (if decide ((0x1a12345 - address_cast scenario_A)
                / SUPERSLAB_SIZE scenario_BITS = 0)
     then next_pow2_bits scenario_S
     else 64 + Z.log2 ((0x1a12345 - address_cast scenario_A)
                       / SUPERSLAB_SIZE scenario_BITS) + scenario_BITS).
Proof.
  assert (8 ≤ scenario_BITS) as H1 by concrete.
  assert (granule_aligned scenario_BITS scenario_A) as H2 by concrete.
  assert (region_in_address_space scenario_A scenario_S) as H3
    by (split; concrete).
  assert (scenario_BITS ≤ next_pow2_bits scenario_S) as H4 by concrete.
  assert (address_cast scenario_A ≤ 0x1a12345
          < address_cast scenario_A + next_pow2 scenario_S) as H5
    by (split; concrete).
  split; [exact H1|]. split; [exact H2|]. split; [exact H3|].
  split; [exact H4|]. split; [exact H5|].
  exact (proj1 (pal_set_large_size_classification scenario_BITS ∅ scenario_A
                  scenario_S 0x1a12345 H1 H2 H3 H4) H5).
Defined.

(** X11: in the capability chunk map, [clear_large_size] after
    [set_large_size] at a granule-aligned pointer passes its assertion and
    replaces every capability of the allocation by [NULL]: every address of
    the allocation then reads [CMNotOurs], [getp] yields [NULL], respectively
    a pointer without authority, and addresses outside read as before the
    registration. *)
Theorem pal_large_release_revokes
    (NDEBUG : bool) (SB : Z) (cm : gmap Z ptr) (vp q : ptr) (size : Z) :
  8 ≤ SB →
  granule_aligned SB vp →
  region_in_address_space vp size →
  SB ≤ next_pow2_bits size →
  next_pow2 size < 2 ^ BITS →
  valid_address q →
  let inside (a : Z) := address_cast vp ≤ a < address_cast vp + next_pow2 size in
  ∃ cm2,
    PalChunkMap.clear_large_size NDEBUG SB
      (PalChunkMap.set_large_size SB cm vp size) vp size = Some cm2 ∧
    (∀ a, PalChunkMap.get SB cm2 a
          = if decide (inside a) then kind_value CMNotOurs
            else PalChunkMap.get SB cm a) ∧
    (inside (address_cast q) →
     PalChunkMap.getp SB false cm2 q = NULL ∧
     PalChunkMap.getp SB true cm2 q = mk_ptr 0%N (address_cast q)).
Proof.
  intros HSB Hal Hfit Hle Hlt Hvq. cbv zeta.
  assert (0 ≤ SB) as H0 by lia.
  pose proof (granule_aligned_mod SB vp Hal) as Hmod.
  assert (0 < 2 ^ (next_pow2_bits size - SB)) as Hpos
    by (apply Z.pow_pos_nonneg; lia).
  assert (∀ a, address_cast vp ≤ a < address_cast vp + next_pow2 size
               ↔ pm_index SB (address_cast vp) ≤ pm_index SB a
                 < pm_index SB (address_cast vp)
                   + 2 ^ (next_pow2_bits size - SB)) as Hin.
  { intros a. unfold next_pow2. by apply pm_index_in_region. }
  destruct (pal_interior_code SB cm vp size (address_cast vp)
              HSB Hal Hfit Hle) as [Hhead _].
  rewrite Z.sub_diag, Z.div_0_l in Hhead
    by (rewrite SUPERSLAB_SIZE_pow2; apply Z.pow_nonzero; lia).
  rewrite decide_True in Hhead by done.
  unfold PalChunkMap.clear_large_size. cbv zeta.
  rewrite Hhead by (apply Hin; lia). rewrite Z.eqb_refl.
  unfold assert_holds. rewrite orb_true_r, count_cells by done.
  eexists. split; [done|]. split.
  - intros a. rewrite !pal_get_lookup, lookup_pm_set_range.
    destruct (decide (address_cast vp ≤ a < address_cast vp + next_pow2 size))
      as [Ha|Ha].
    + rewrite decide_True by (by apply Hin). done.
    + rewrite decide_False by (by rewrite <- Hin).
      rewrite pal_large_cells by done.
      rewrite Hin in Ha. by rewrite !decide_False by lia.
  - intros Hq. apply pal_getp_null; [done|]. right.
    rewrite lookup_pm_set_range. by rewrite decide_True by (by apply Hin).
Qed.

Lemma pal_large_release_revokes_witness :
  let q := mk_ptr 7%N 0x1a12345 in
  8 ≤ scenario_BITS ∧
  granule_aligned scenario_BITS scenario_A ∧
  region_in_address_space scenario_A scenario_S ∧
  scenario_BITS ≤ next_pow2_bits scenario_S ∧
  next_pow2 scenario_S < 2 ^ BITS ∧
  valid_address q ∧
  address_cast scenario_A ≤ address_cast q
  < address_cast scenario_A + next_pow2 scenario_S ∧
  ∃ cm2,
    PalChunkMap.clear_large_size false scenario_BITS
      (PalChunkMap.set_large_size scenario_BITS ∅ scenario_A scenario_S)
      scenario_A scenario_S = Some cm2 ∧
    PalChunkMap.getp scenario_BITS false cm2 q = NULL.
Proof.
  cbv zeta.
  assert (8 ≤ scenario_BITS) as H1 by concrete.
  assert (granule_aligned scenario_BITS scenario_A) as H2 by concrete.
  assert (region_in_address_space scenario_A scenario_S) as H3
    by (split; concrete).
  assert (scenario_BITS ≤ next_pow2_bits scenario_S) as H4 by concrete.
  assert (next_pow2 scenario_S < 2 ^ BITS) as H5 by concrete.
  assert (valid_address (mk_ptr 7%N 0x1a12345)) as H6 by (split; concrete).
  assert (address_cast scenario_A ≤ address_cast (mk_ptr 7%N 0x1a12345)
          < address_cast scenario_A + next_pow2 scenario_S) as H7
    by (split; concrete).
  split; [exact H1|]. split; [exact H2|]. split; [exact H3|].
  split; [exact H4|]. split; [exact H5|]. split; [exact H6|]. split; [exact H7|].
  destruct (pal_large_release_revokes false scenario_BITS ∅
              scenario_A _ scenario_S H1 H2 H3 H4 H5 H6)
    as (cm2 & Hclear & _ & Hgetp).
  exists cm2. split; [exact Hclear | exact (proj1 (Hgetp H7))].
Defined.

(** * Pointer helpers of ds/address.h *)

Lemma pow2_minus_1_ones (n : Z) : 2 ^ n - 1 = Z.ones n.
Proof. rewrite Z.ones_equiv. lia. Qed.

Lemma next_pow2_pow2 (n : Z) : 0 ≤ n → next_pow2 (2 ^ n) = 2 ^ n.
Proof.
  intros Hn. unfold next_pow2, next_pow2_bits. by rewrite Z.log2_up_pow2.
Qed.

(** X12: for a power-of-two [alignment], [is_aligned_block<alignment>(p,
    size)] is true exactly when both the address of [p] and [size] are
    multiples of [alignment]; for an [alignment] that is not a power of two its
    assertion fails. *)
Theorem is_aligned_block_spec (NDEBUG : bool) (n : Z) (p : ptr) (size : Z) :
  0 ≤ n →
  is_aligned_block NDEBUG (2 ^ n) p size
  = Some (bool_decide (address_cast p mod 2 ^ n = 0 ∧ size mod 2 ^ n = 0)) ∧
  (∀ alignment : Z, next_pow2 alignment ≠ alignment →
     is_aligned_block false alignment p size = None).
Proof.
  intros Hn. unfold is_aligned_block, assert_holds. split.
  - rewrite next_pow2_pow2, Z.eqb_refl, orb_true_r by done. f_equal.
    rewrite pow2_minus_1_ones, Z.land_lor_distr_l, !Z.land_ones by done.
    destruct (Z.eqb_spec (Z.lor (address_cast p mod 2 ^ n) (size mod 2 ^ n)) 0)
      as [Hz|Hnz].
    + apply Z.lor_eq_0_iff in Hz. by rewrite bool_decide_eq_true_2.
    + rewrite bool_decide_eq_false_2; [done|].
      intros Hz. apply Hnz. by apply Z.lor_eq_0_iff.
  - intros alignment Hne. rewrite orb_false_l.
    by rewrite (proj2 (Z.eqb_neq _ _)).
Qed.

Lemma is_aligned_block_spec_witness :
  0 ≤ 12 ∧
  is_aligned_block false (2 ^ 12) scenario_A 8192
  = Some (bool_decide (address_cast scenario_A mod 2 ^ 12 = 0
                       ∧ 8192 mod 2 ^ 12 = 0)).
Proof.
  assert (0 ≤ 12) as H0 by concrete.
  split; [exact H0|].
  exact (proj1 (is_aligned_block_spec false 12 scenario_A 8192 H0)).
Defined.

(** X13: [pointer_align_down<granule>(p)] for a power-of-two [granule] keeps
    the authority of [p] and moves its address to the greatest multiple of
    [granule] that is not above it; it changes an aligned pointer in no way
    and doing it twice is doing it once. *)
Theorem pointer_align_down_spec (n : Z) (p : ptr) :
  0 ≤ n →
  let r := pointer_align_down (2 ^ n) p in
  ptr_auth r = ptr_auth p ∧
  address_cast r mod 2 ^ n = 0 ∧
  address_cast r ≤ address_cast p < address_cast r + 2 ^ n ∧
  (∀ m : Z, m mod 2 ^ n = 0 → m ≤ address_cast p → m ≤ address_cast r) ∧
  (address_cast p mod 2 ^ n = 0 → r = p) ∧
  pointer_align_down (2 ^ n) r = r.
Proof.
  intros Hn. cbv zeta. destruct p as [auth addr].
  unfold pointer_align_down, address_cast. simpl.
  rewrite !align_down_pow2 by done.
  assert (0 < 2 ^ n) as Hpos by (apply Z.pow_pos_nonneg; lia).
  pose proof (Z.mul_div_le addr (2 ^ n) Hpos) as Hlo.
  pose proof (Z.mul_succ_div_gt addr (2 ^ n) Hpos) as Hhi.
  split; [done|]. split; [|split; [|split; [|split]]].
  - rewrite Z.mul_comm. apply Z.mod_mul. lia.
  - lia.
  - intros m Hm Hle. apply Z.mod_divide in Hm as [q ->]; [|lia].
    assert (q ≤ addr / 2 ^ n) by (apply Z.div_le_lower_bound; lia). nia.
  - intros Hal. f_equal. apply Z.mod_divide in Hal as [q ->]; [|lia].
    rewrite Z.div_mul by lia. lia.
  - f_equal. rewrite (Z.mul_comm (2 ^ n) (addr / 2 ^ n)), Z.div_mul by lia. lia.
Qed.

Lemma pointer_align_down_spec_witness :
  0 ≤ 8 ∧
  pointer_align_down (2 ^ 8) (pointer_align_down (2 ^ 8) (mk_ptr 3%N 0x1000055))
  = pointer_align_down (2 ^ 8) (mk_ptr 3%N 0x1000055).
Proof.
  assert (0 ≤ 8) as H0 by concrete.
  split; [exact H0|].
  exact (proj2 (proj2 (proj2 (proj2 (proj2
           (pointer_align_down_spec 8 (mk_ptr 3%N 0x1000055) H0)))))).
Defined.

Lemma align_up_pow2 (a n : Z) :
  0 ≤ n → 0 ≤ a → a + (2 ^ n - 1) < 2 ^ BITS →
  align_up a (2 ^ n) = 2 ^ n * ((a + (2 ^ n - 1)) / 2 ^ n).
Proof.
  intros Hn Ha Hfit. unfold align_up.
  assert (0 < 2 ^ n) by (apply Z.pow_pos_nonneg; lia).
  rewrite wrap64_small by lia.
  fold (align_down (a + (2 ^ n - 1)) (2 ^ n)). by apply align_down_pow2.
Qed.

(** X14: [pointer_align_up<granule>(p)] for a power-of-two [granule], when
    [p + granule - 1] does not pass the end of the address space, keeps the
    authority of [p] and moves its address to the least multiple of [granule]
    that is not below it, so that [pointer_align_down(p) <= p <=
    pointer_align_up(p)], with equality exactly for an aligned [p]. *)
Theorem pointer_align_up_spec (n : Z) (p : ptr) :
  0 ≤ n → 0 ≤ address_cast p → address_cast p + (2 ^ n - 1) < 2 ^ BITS →
  let r := pointer_align_up (2 ^ n) p in
  ptr_auth r = ptr_auth p ∧
  address_cast r mod 2 ^ n = 0 ∧
  address_cast p ≤ address_cast r < address_cast p + 2 ^ n ∧
  (∀ m : Z, m mod 2 ^ n = 0 → address_cast p ≤ m → address_cast r ≤ m) ∧
  address_cast (pointer_align_down (2 ^ n) p) ≤ address_cast p ∧
  (r = p ↔ address_cast p mod 2 ^ n = 0).
Proof.
  intros Hn Ha Hfit. cbv zeta. destruct p as [auth addr].
  unfold pointer_align_up, pointer_align_down, address_cast in *. simpl in *.
  rewrite align_up_pow2, align_down_pow2 by done.
  assert (0 < 2 ^ n) as Hpos by (apply Z.pow_pos_nonneg; lia).
  pose proof (Z.mul_div_le (addr + (2 ^ n - 1)) (2 ^ n) Hpos) as Hlo.
  pose proof (Z.mul_succ_div_gt (addr + (2 ^ n - 1)) (2 ^ n) Hpos) as Hhi.
  pose proof (Z.mul_div_le addr (2 ^ n) Hpos) as Hdown.
  split; [done|]. split; [|split; [|split; [|split]]].
  - rewrite Z.mul_comm. apply Z.mod_mul. lia.
  - lia.
  - intros m Hm Hle. apply Z.mod_divide in Hm as [q ->]; [|lia].
    assert ((addr + (2 ^ n - 1)) / 2 ^ n ≤ q); [|nia].
    apply Z.lt_succ_r. apply Z.div_lt_upper_bound; lia.
  - done.
  - split.
    + intros [= Heq]. rewrite <- Heq. rewrite Z.mul_comm. apply Z.mod_mul. lia.
    + intros Hal. f_equal. apply Z.mod_divide in Hal as [q ->]; [|lia].
      replace (q * 2 ^ n + (2 ^ n - 1)) with ((2 ^ n - 1) + q * 2 ^ n) by lia.
      rewrite Z.div_add by lia. rewrite Z.div_small by lia. lia.
Qed.

Lemma pointer_align_up_spec_witness :
  0 ≤ 8 ∧ 0 ≤ address_cast (mk_ptr 3%N 0x1000055) ∧
  address_cast (mk_ptr 3%N 0x1000055) + (2 ^ 8 - 1) < 2 ^ BITS ∧
  address_cast (pointer_align_up (2 ^ 8) (mk_ptr 3%N 0x1000055)) mod 2 ^ 8 = 0.
Proof.
  assert (0 ≤ 8) as H0 by concrete.
  assert (0 ≤ address_cast (mk_ptr 3%N 0x1000055)) as H1 by concrete.
  assert (address_cast (mk_ptr 3%N 0x1000055) + (2 ^ 8 - 1) < 2 ^ BITS) as H2
    by concrete.
  split; [exact H0|]. split; [exact H1|]. split; [exact H2|].
  exact (proj1 (proj2 (pointer_align_up_spec 8 (mk_ptr 3%N 0x1000055) H0 H1 H2))).
Defined.

(** X15: [pointer_offset] adds offsets modulo [2^64] and never changes the
    authority: two offsets in a row are the offset by their sum, the offset 0
    changes nothing, the offset by [-a] as a [size_t] undoes the offset by
    [a], and an address made into a pointer by [pointer_cast] reads back as
    the same address. *)
Theorem pointer_offset_additive (p : ptr) (a b : Z) :
  valid_address p →
  pointer_offset (pointer_offset p a) b = pointer_offset p (a + b) ∧
  pointer_offset p 0 = p ∧
  pointer_offset (pointer_offset p a) (wrap64 (- a)) = p ∧
  ptr_auth (pointer_offset p a) = ptr_auth p ∧
  address_cast (pointer_cast (address_cast p)) = address_cast p.
Proof.
  intros Hv. destruct p as [auth addr].
  unfold valid_address, pointer_offset, pointer_cast, address_cast in *.
  simpl in *.
  split; [|split; [|split; [|split]]]; try done.
  - f_equal. unfold wrap64. rewrite Zplus_mod_idemp_l. f_equal. lia.
  - f_equal. rewrite Z.add_0_r. by apply wrap64_small.
  - f_equal. unfold wrap64. rewrite Zplus_mod_idemp_l, Zplus_mod_idemp_r.
    replace (addr + a + - a) with addr by lia. by apply Z.mod_small.
Qed.

Lemma pointer_offset_additive_witness :
  valid_address scenario_A ∧
  pointer_offset (pointer_offset scenario_A 24) (wrap64 (- 24)) = scenario_A.
Proof.
  assert (valid_address scenario_A) as H0 by (split; concrete).
  split; [exact H0|].
  exact (proj1 (proj2 (proj2 (pointer_offset_additive scenario_A 24 0 H0)))).
Defined.

(** * Allocation entry points of override/malloc.cc *)

(** ** Bit tests *)

Lemma land_pred_zero_iff_pow2 (a : Z) :
  0 < a → (Z.land a (a - 1) = 0 ↔ ∃ k, 0 ≤ k ∧ a = 2 ^ k).
Proof.
  intros Ha. split.
  - intros Hland. exists (Z.log2 a). split; [apply Z.log2_nonneg|].
    pose proof (Z.log2_spec a Ha) as [Hlo Hhi].
    destruct (Z.eq_dec a (2 ^ Z.log2 a)) as [|Hne]; [done|exfalso].
    assert (Z.log2 (a - 1) = Z.log2 a) as Hlog.
    { apply Z.log2_unique; [apply Z.log2_nonneg | lia]. }
    assert (Z.testbit (Z.land a (a - 1)) (Z.log2 a) = true) as Hbit.
    { rewrite Z.land_spec, Z.bit_log2 by done.
      rewrite <- Hlog. rewrite Z.bit_log2; [done|].
      assert (0 < 2 ^ Z.log2 a) by (apply Z.pow_pos_nonneg; [lia|apply Z.log2_nonneg]).
      lia. }
    rewrite Hland, Z.bits_0 in Hbit. done.
  - intros (k & Hk & ->). rewrite pow2_minus_1_ones, Z.land_ones by done.
    apply Z.mod_same. apply Z.pow_nonzero; lia.
Qed.

Lemma land_wrap64_r (x y : Z) :
  0 ≤ x < 2 ^ BITS → Z.land x (wrap64 y) = Z.land x y.
Proof.
  intros Hx. unfold wrap64, BITS in *.
  rewrite <- (Z.land_ones y 64) by lia.
  rewrite (Z.land_comm y), Z.land_assoc, Z.land_ones by lia.
  by rewrite Z.mod_small.
Qed.

Lemma bits_above_zero_lt (x k : Z) :
  0 ≤ x → 0 ≤ k → (∀ j, k ≤ j → Z.testbit x j = false) → x < 2 ^ k.
Proof.
  intros Hx Hk Hbits.
  assert (x / 2 ^ k = 0) as Hdiv.
  { apply Z.bits_inj_0. intros j. destruct (Z.neg_nonneg_cases j) as [Hj|Hj].
    - by apply Z.testbit_neg_r.
    - rewrite Z.div_pow2_bits by done. apply Hbits. lia. }
  assert (0 < 2 ^ k) as Hpos by (apply Z.pow_pos_nonneg; lia).
  apply Z.div_small_iff in Hdiv; lia.
Qed.

Lemma lowest_set_bit_divides (size k : Z) :
  0 ≤ size < 2 ^ BITS → 0 ≤ k → 2 ^ k ≤ lowest_set_bit size →
  size mod 2 ^ k = 0.
Proof.
  intros Hsize Hk Hle.
  destruct (Z.eq_dec (size mod 2 ^ k) 0) as [|Hne]; [done|exfalso].
  assert (0 < 2 ^ k) as Hpos by (apply Z.pow_pos_nonneg; lia).
  assert (lowest_set_bit size < 2 ^ k); [|lia].
  unfold lowest_set_bit in *.
  assert (wrap64 (wrap64 (Z.lnot size) + 1) = wrap64 (Z.lnot (size - 1))) as Hw.
  { unfold wrap64. rewrite Zplus_mod_idemp_l. f_equal.
    unfold Z.lnot. lia. }
  rewrite Hw, land_wrap64_r by done.
  apply bits_above_zero_lt; [|done|].
  - apply Z.land_nonneg. lia.
  - intros j Hj. rewrite Z.land_spec, Z.lnot_spec by lia.
    assert (Z.testbit (size - 1) j = Z.testbit size j) as ->;
      [|by destruct (Z.testbit size j)].
    replace j with ((j - k) + k) by lia.
    rewrite <- !Z.div_pow2_bits by lia. f_equal.
    pose proof (Z.div_mod size (2 ^ k) ltac:(lia)) as Hdm.
    pose proof (Z.mod_pos_bound size (2 ^ k) Hpos) as Hr.
    symmetry. apply (Z.div_unique _ _ _ (size mod 2 ^ k - 1)); lia.
Qed.

(** ** memalign and its callers *)

Section MallocOverrideProperties.
Variable process : Type.
Variable set_errno : Z → process → process.
Variable alloc : Z → process → ptr * process.
Variable SUPERSLAB_BITS : Z.
Variable SIZEOF_UINTPTR : Z.
Variable NUM_SIZECLASSES : Z.
Variable size_to_sizeclass : Z → Z.
Variable sizeclass_to_size : Z → Z.

(** X16: [memalign] rejects an alignment of 0, of [size_t(-1)] or above
    [SUPERSLAB_SIZE] with [EINVAL], and otherwise a [size] for which [size +
    alignment] overflows 64 bits with [ENOMEM]; in both cases it returns
    [nullptr] and asks the allocator for nothing.  In every other case no
    error is set before the allocator is asked. *)
Theorem memalign_validation
    (NDEBUG : bool) (alignment size : Z) (pr : process) :
  0 ≤ alignment < 2 ^ BITS → 0 ≤ size < 2 ^ BITS →
  let invalid :=
    alignment = 0 ∨ alignment = SIZE_MAX
    ∨ SUPERSLAB_SIZE SUPERSLAB_BITS < alignment in
  (invalid → memalign process set_errno alloc NDEBUG SUPERSLAB_BITS NUM_SIZECLASSES
     size_to_sizeclass sizeclass_to_size alignment size pr = Some (NULL, set_errno EINVAL pr)) ∧
  (¬ invalid → 2 ^ BITS ≤ size + alignment →
   memalign process set_errno alloc NDEBUG SUPERSLAB_BITS NUM_SIZECLASSES
     size_to_sizeclass sizeclass_to_size alignment size pr = Some (NULL, set_errno ENOMEM pr)) ∧
  (¬ invalid → size + alignment < 2 ^ BITS →
   memalign process set_errno alloc NDEBUG SUPERSLAB_BITS NUM_SIZECLASSES
     size_to_sizeclass sizeclass_to_size alignment size pr
   = if NUM_SIZECLASSES <=? size_to_sizeclass (Z.max size alignment)
     then Some (alloc (Z.max size alignment) pr)
     else memalign_scan process alloc NDEBUG SUPERSLAB_BITS sizeclass_to_size
            (Z.to_nat (NUM_SIZECLASSES - size_to_sizeclass (Z.max size alignment)))
            (size_to_sizeclass (Z.max size alignment)) alignment pr).
Proof.
  intros Hal Hsize. cbv zeta. unfold memalign.
  destruct (Z.eqb_spec alignment 0) as [H0|H0];
    destruct (Z.eqb_spec alignment SIZE_MAX) as [Hm|Hm];
    destruct (Z.ltb_spec (SUPERSLAB_SIZE SUPERSLAB_BITS) alignment) as [Hs|Hs];
    simpl; try (split; [done | split; intros Hn; exfalso; apply Hn; tauto]).
  split; [intros [?|[?|?]]; done || lia|].
  unfold wrap64, BITS in *. split; intros _ Hsum.
  - replace (size + alignment) with (size + alignment - 2 ^ 64 + 1 * 2 ^ 64) by lia.
    rewrite Z.mod_add, Z.mod_small by lia.
    by rewrite (proj2 (Z.ltb_lt _ _)) by lia.
  - rewrite Z.mod_small by lia.
    by rewrite (proj2 (Z.ltb_ge _ _)) by lia.
Qed.

Lemma memalign_scan_pow2
    (NDEBUG : bool) (k : Z) (pr : process) (fuel : nat) : ∀ sc : Z,
  0 ≤ k ≤ SUPERSLAB_BITS →
  (∀ c, 0 ≤ sizeclass_to_size c < 2 ^ BITS) →
  ∃ sz, memalign_scan process alloc NDEBUG SUPERSLAB_BITS sizeclass_to_size
          fuel sc (2 ^ k) pr = Some (alloc sz pr) ∧
        sz mod 2 ^ k = 0.
Proof.
  intros sc Hk Hrange. revert sc. induction fuel as [|fuel IH]; intros sc; simpl.
  - exists (SUPERSLAB_SIZE SUPERSLAB_BITS). split; [done|].
    rewrite SUPERSLAB_SIZE_pow2.
    replace SUPERSLAB_BITS with ((SUPERSLAB_BITS - k) + k) by lia.
    rewrite Z.pow_add_r by lia. apply Z.mod_mul. apply Z.pow_nonzero; lia.
  - destruct (Z.leb_spec (2 ^ k) (lowest_set_bit (sizeclass_to_size sc)))
      as [Hle|Hgt]; [|apply IH].
    pose proof (lowest_set_bit_divides (sizeclass_to_size sc) k
                  (Hrange sc) ltac:(lia) Hle) as Hdiv.
    exists (sizeclass_to_size sc). split; [|done].
    unfold aligned_alloc, assert_holds, malloc.
    by rewrite Hdiv, Z.eqb_refl, orb_true_r.
Qed.

Lemma memalign_pow2_cases
    (NDEBUG : bool) (k size : Z) (pr : process) :
  0 ≤ k →
  (∀ c, 0 ≤ sizeclass_to_size c < 2 ^ BITS) →
  memalign process set_errno alloc NDEBUG SUPERSLAB_BITS NUM_SIZECLASSES
    size_to_sizeclass sizeclass_to_size (2 ^ k) size pr
  = Some (NULL, set_errno EINVAL pr) ∨
  memalign process set_errno alloc NDEBUG SUPERSLAB_BITS NUM_SIZECLASSES
    size_to_sizeclass sizeclass_to_size (2 ^ k) size pr
  = Some (NULL, set_errno ENOMEM pr) ∨
  ∃ sz,
    memalign process set_errno alloc NDEBUG SUPERSLAB_BITS NUM_SIZECLASSES
      size_to_sizeclass sizeclass_to_size (2 ^ k) size pr
    = Some (alloc sz pr) ∧
    ((NUM_SIZECLASSES ≤ size_to_sizeclass (Z.max size (2 ^ k))
      ∧ sz = Z.max size (2 ^ k))
     ∨ sz mod 2 ^ k = 0).
Proof.
  intros Hk Hrange. unfold memalign.
  destruct ((2 ^ k =? 0) || (2 ^ k =? SIZE_MAX)
            || (SUPERSLAB_SIZE SUPERSLAB_BITS <? 2 ^ k)) eqn:Hinv; [by left|].
  destruct (wrap64 (size + 2 ^ k) <? size); [by right; left|].
  right; right. cbv zeta.
  destruct (Z.leb_spec NUM_SIZECLASSES (size_to_sizeclass (Z.max size (2 ^ k))))
    as [Hlarge|Hsmall].
  - eexists. split; [done|]. by left.
  - apply orb_false_iff in Hinv as [_ Hs]. apply Z.ltb_ge in Hs.
    rewrite SUPERSLAB_SIZE_pow2 in Hs.
    assert (k ≤ SUPERSLAB_BITS) as HkSB.
    { destruct (Z.le_gt_cases k SUPERSLAB_BITS) as [|Hgt]; [done|exfalso].
      destruct (Z.neg_nonneg_cases SUPERSLAB_BITS) as [Hneg|Hnn].
      - rewrite (Z.pow_neg_r 2 SUPERSLAB_BITS) in Hs by done.
        assert (0 < 2 ^ k) by (apply Z.pow_pos_nonneg; lia). lia.
      - assert (2 ^ SUPERSLAB_BITS < 2 ^ k) by (apply Z.pow_lt_mono_r; lia). lia. }
    destruct (memalign_scan_pow2 NDEBUG k pr
                (Z.to_nat (NUM_SIZECLASSES - size_to_sizeclass (Z.max size (2 ^ k))))
                (size_to_sizeclass (Z.max size (2 ^ k))) ltac:(lia) Hrange)
      as (sz & Hscan & Hdiv).
    exists sz. split; [done | by right].
Qed.


(** X18: [posix_memalign] returns [EINVAL], leaving [*memptr] and the state
    alone, exactly when the alignment is not a power of two that is a multiple
    of [sizeof(uintptr_t)].  For every other alignment it does not abort, and
    it either returns 0 with [*memptr] set to the non-null pointer that
    [memalign] returned, or returns [ENOMEM] with [*memptr] unchanged. *)
Theorem posix_memalign_result
    (NDEBUG : bool) (memptr : ptr) (alignment size : Z) (pr : process) :
  0 ≤ alignment < 2 ^ BITS →
  0 < SIZEOF_UINTPTR →
  (∀ c, 0 ≤ sizeclass_to_size c < 2 ^ BITS) →
  let valid :=
    (∃ k, 0 ≤ k ∧ alignment = 2 ^ k) ∧ alignment mod SIZEOF_UINTPTR = 0 in
  let result :=
    posix_memalign process set_errno alloc NDEBUG SUPERSLAB_BITS SIZEOF_UINTPTR
      NUM_SIZECLASSES size_to_sizeclass sizeclass_to_size
      memptr alignment size pr in
  (result = Some (EINVAL, memptr, pr) ↔ ¬ valid) ∧
  (valid →
   ∃ p pr',
     memalign process set_errno alloc NDEBUG SUPERSLAB_BITS NUM_SIZECLASSES
       size_to_sizeclass sizeclass_to_size alignment size pr = Some (p, pr') ∧
     ((address_cast p ≠ 0 ∧ result = Some (0, p, pr')) ∨
      (address_cast p = 0 ∧ result = Some (ENOMEM, memptr, pr')))).
Proof.
  intros Hal HW Hrange. cbv zeta. unfold posix_memalign.
  assert (wrap64 (alignment - 1) = alignment - 1 ∨ alignment = 0) as Hpred.
  { destruct (Z.eq_dec alignment 0); [by right|left].
    apply wrap64_small. lia. }
  destruct (Z.eqb_spec (alignment mod SIZEOF_UINTPTR) 0) as [Hmod|Hmod]; simpl.
  2: { split; [split; [intros _ [_ ?]; done | done]|]. intros [_ ?]. done. }
  destruct (Z.eqb_spec alignment 0) as [Hz|Hnz].
  { subst alignment. simpl. split.
    - split; [|done]. intros _ [(k & Hk & Hpow) _].
      assert (0 < 2 ^ k) by (apply Z.pow_pos_nonneg; lia). lia.
    - intros [(k & Hk & Hpow) _].
      assert (0 < 2 ^ k) by (apply Z.pow_pos_nonneg; lia). lia. }
  destruct Hpred as [Hpred|]; [|done]. rewrite Hpred.
  pose proof (land_pred_zero_iff_pow2 alignment ltac:(lia)) as Hpow.
  destruct (Z.eqb_spec (Z.land alignment (alignment - 1)) 0) as [Hland|Hland];
    simpl.
  2: { split; [split; [|done]|].
       - intros _ [Hk _]. apply Hland. by apply Hpow.
       - intros [Hk _]. exfalso. apply Hland. by apply Hpow. }
  apply Hpow in Hland as (k & Hk & ->).
  destruct (memalign_pow2_cases NDEBUG k size pr Hk Hrange)
    as [Hm | [Hm | (sz & Hm & _)]]; rewrite Hm.
  - simpl. split.
    + split; [discriminate|]. intros Hn. exfalso. apply Hn. split; [eauto|done].
    + intros _. eexists. eexists. split; [done|]. by right.
  - simpl. split.
    + split; [discriminate|]. intros Hn. exfalso. apply Hn. split; [eauto|done].
    + intros _. eexists. eexists. split; [done|]. by right.
  - destruct (alloc sz pr) as [p pr'].
    change (address_cast NULL) with 0.
    destruct (Z.eqb_spec (address_cast p) 0) as [Hnull|Hnn].
    + split.
      * split; [discriminate|]. intros Hn. exfalso. apply Hn. split; [eauto|done].
      * intros _. exists p, pr'. split; [done|]. by right.
    + split.
      * split; [discriminate|]. intros Hn. exfalso. apply Hn. split; [eauto|done].
      * intros _. exists p, pr'. split; [done|]. by left.
Qed.
End MallocOverrideProperties.

Lemma memalign_validation_witness :
  0 ≤ 2 ^ 22 < 2 ^ BITS ∧ 0 ≤ 100 < 2 ^ BITS ∧
  SUPERSLAB_SIZE scenario_BITS < 2 ^ 22 ∧
  memalign (Z * Z) bump_set_errno bump_alloc false scenario_BITS 24
    pow2_size_to_sizeclass pow2_sizeclass_to_size (2 ^ 22) 100 (0x2000, 0)
  = Some (NULL, bump_set_errno EINVAL (0x2000, 0)).
Proof.
  assert (0 ≤ 2 ^ 22 < 2 ^ BITS) as H1 by (split; concrete).
  assert (0 ≤ 100 < 2 ^ BITS) as H2 by (split; concrete).
  assert (SUPERSLAB_SIZE scenario_BITS < 2 ^ 22) as H3 by concrete.
  split; [exact H1|]. split; [exact H2|]. split; [exact H3|].
  exact (proj1 (memalign_validation (Z * Z) bump_set_errno bump_alloc
                  scenario_BITS 24 pow2_size_to_sizeclass pow2_sizeclass_to_size
                  false (2 ^ 22) 100 (0x2000, 0) H1 H2)
           (or_intror (or_intror H3))).
Defined.


Lemma posix_memalign_result_witness :
  0 ≤ 24 < 2 ^ BITS ∧ 0 < 8 ∧
  (∀ c, 0 ≤ pow2_sizeclass_to_size c < 2 ^ BITS) ∧
  ¬ ((∃ k, 0 ≤ k ∧ 24 = 2 ^ k) ∧ 24 mod 8 = 0) ∧
  posix_memalign (Z * Z) bump_set_errno bump_alloc false scenario_BITS 8 24
    pow2_size_to_sizeclass pow2_sizeclass_to_size NULL 24 100 (0x2000, 0)
  = Some (EINVAL, NULL, (0x2000, 0)).
Proof.
  assert (0 ≤ 24 < 2 ^ BITS) as H1 by (split; concrete).
  assert (0 < 8) as H2 by concrete.
  assert (∀ c, 0 ≤ pow2_sizeclass_to_size c < 2 ^ BITS) as H3
    by (intros c; apply wrap64_range).
  assert (¬ ((∃ k, 0 ≤ k ∧ 24 = 2 ^ k) ∧ 24 mod 8 = 0)) as H4.
  { intros [(k & Hk & Hpow) _].
    assert (k < 5) by (apply (Z.pow_lt_mono_r_iff 2); lia).
    assert (k = 0 ∨ k = 1 ∨ k = 2 ∨ k = 3 ∨ k = 4) as Hcases by lia.
    destruct Hcases as [->|[->|[->|[->| ->]]]]; discriminate. }
  split; [exact H1|]. split; [exact H2|]. split; [exact H3|]. split; [exact H4|].
  exact (proj2 (proj1 (posix_memalign_result (Z * Z) bump_set_errno bump_alloc
                         scenario_BITS 8 24 pow2_size_to_sizeclass
                         pow2_sizeclass_to_size false NULL 24 100 (0x2000, 0)
                         H1 H2 H3)) H4).
Defined.

(** ** pvalloc *)

Lemma pvalloc_size_align (k size : Z) :
  0 ≤ k < 64 → 0 ≤ size < 2 ^ BITS →
  pvalloc_size (2 ^ k) size
  = 2 ^ k * (wrap64 (size + 2 ^ k - 1) / 2 ^ k).
Proof.
  intros Hk Hsize. unfold pvalloc_size.
  assert (0 < 2 ^ k) as Hpos by (apply Z.pow_pos_nonneg; lia).
  assert (2 ^ k < 2 ^ BITS) as Hlt by (apply Z.pow_lt_mono_r; unfold BITS; lia).
  assert (wrap64 (wrap64 (size + 2 ^ k) - 1) = wrap64 (size + 2 ^ k - 1)) as ->.
  { unfold wrap64. by rewrite Zminus_mod_idemp_l. }
  rewrite (wrap64_small (2 ^ k - 1)) by lia.
  rewrite land_wrap64_r by apply wrap64_range.
  fold (align_down (wrap64 (size + 2 ^ k - 1)) (2 ^ k)).
  apply align_down_pow2. lia.
Qed.

Section PvallocProperties.
Variable process : Type.
Variable set_errno : Z → process → process.
Variable alloc : Z → process → ptr * process.
Variable SUPERSLAB_BITS : Z.
Variable NUM_SIZECLASSES : Z.
Variable size_to_sizeclass : Z → Z.
Variable sizeclass_to_size : Z → Z.

(** X19: with a page size of [2^k] bytes, [pvalloc(size)] returns [nullptr]
    with [ENOMEM] for [size = size_t(-1)]; for any other [size <= 2^64 - 2^k]
    it is [memalign] of the page size and of the least multiple of the page
    size that is no smaller than [size]; for the sizes in between, the
    rounding wraps around and it is [memalign] of the page size and of 0
    bytes. *)
Theorem pvalloc_rounds_to_pages
    (NDEBUG : bool) (k size : Z) (pr : process) :
  0 ≤ k < 64 → 0 ≤ size < 2 ^ BITS →
  (size = SIZE_MAX →
   pvalloc process set_errno alloc NDEBUG SUPERSLAB_BITS (2 ^ k) NUM_SIZECLASSES
     size_to_sizeclass sizeclass_to_size size pr
   = Some (NULL, set_errno ENOMEM pr)) ∧
  (size < SIZE_MAX → size ≤ 2 ^ BITS - 2 ^ k →
   ∃ r, r mod 2 ^ k = 0 ∧ size ≤ r < size + 2 ^ k ∧
        pvalloc process set_errno alloc NDEBUG SUPERSLAB_BITS (2 ^ k)
          NUM_SIZECLASSES size_to_sizeclass sizeclass_to_size size pr
        = memalign process set_errno alloc NDEBUG SUPERSLAB_BITS NUM_SIZECLASSES
            size_to_sizeclass sizeclass_to_size (2 ^ k) r pr) ∧
  (2 ^ BITS - 2 ^ k < size < SIZE_MAX →
   pvalloc process set_errno alloc NDEBUG SUPERSLAB_BITS (2 ^ k) NUM_SIZECLASSES
     size_to_sizeclass sizeclass_to_size size pr
   = memalign process set_errno alloc NDEBUG SUPERSLAB_BITS NUM_SIZECLASSES
       size_to_sizeclass sizeclass_to_size (2 ^ k) 0 pr).
Proof.
  intros Hk Hsize.
  assert (0 < 2 ^ k) as Hpos by (apply Z.pow_pos_nonneg; lia).
  assert (2 ^ k < 2 ^ BITS) as Hlt by (apply Z.pow_lt_mono_r; unfold BITS; lia).
  unfold pvalloc. split; [|split].
  - intros ->. by rewrite Z.eqb_refl.
  - intros Hmax Hfit.
    rewrite (proj2 (Z.eqb_neq _ _)) by lia.
    rewrite pvalloc_size_align by done.
    rewrite wrap64_small by lia.
    pose proof (Z.mul_div_le (size + 2 ^ k - 1) (2 ^ k) Hpos) as Hlo.
    pose proof (Z.mul_succ_div_gt (size + 2 ^ k - 1) (2 ^ k) Hpos) as Hhi.
    eexists. split; [|split; [|done]].
    + rewrite Z.mul_comm. apply Z.mod_mul. lia.
    + lia.
  - intros [Hlo Hhi].
    rewrite (proj2 (Z.eqb_neq _ _)) by lia.
    rewrite pvalloc_size_align by done.
    assert (wrap64 (size + 2 ^ k - 1) = size + 2 ^ k - 1 - 2 ^ BITS) as ->.
    { unfold wrap64, SIZE_MAX in *.
      replace (size + 2 ^ k - 1)
        with (size + 2 ^ k - 1 - 2 ^ BITS + 1 * 2 ^ BITS) at 1 by lia.
      rewrite Z.mod_add by (unfold BITS; lia). apply Z.mod_small. lia. }
    rewrite Z.div_small by (unfold SIZE_MAX in *; lia).
    by rewrite Z.mul_0_r.
Qed.
End PvallocProperties.

Lemma pvalloc_rounds_to_pages_witness :
  0 ≤ 12 < 64 ∧ 0 ≤ 2 ^ 64 - 2 < 2 ^ BITS ∧
  2 ^ BITS - 2 ^ 12 < 2 ^ 64 - 2 < SIZE_MAX ∧
  pvalloc (Z * Z) bump_set_errno bump_alloc false scenario_BITS (2 ^ 12) 24
    pow2_size_to_sizeclass pow2_sizeclass_to_size (2 ^ 64 - 2) (0x2000, 0)
  = memalign (Z * Z) bump_set_errno bump_alloc false scenario_BITS 24
      pow2_size_to_sizeclass pow2_sizeclass_to_size (2 ^ 12) 0 (0x2000, 0).
Proof.
  assert (0 ≤ 12 < 64) as H1 by (split; concrete).
  assert (0 ≤ 2 ^ 64 - 2 < 2 ^ BITS) as H2 by (split; concrete).
  assert (2 ^ BITS - 2 ^ 12 < 2 ^ 64 - 2 < SIZE_MAX) as H3 by (split; concrete).
  split; [exact H1|]. split; [exact H2|]. split; [exact H3|].
  exact (proj2 (proj2 (pvalloc_rounds_to_pages (Z * Z) bump_set_errno bump_alloc
                         scenario_BITS 24 pow2_size_to_sizeclass
                         pow2_sizeclass_to_size false 12 (2 ^ 64 - 2) (0x2000, 0)
                         H1 H2)) H3).
Defined.

(** ** The bootstrap calloc *)

Lemma bootstrap_calloc_size_cases (sz : Z) :
  0 ≤ sz < 2 ^ BITS →
  bootstrap_calloc_size sz
  = if sz =? 0 then 1 else if sz <=? 2 ^ 63 then sz else wrap64 (sz + 1).
Proof.
  intros Hsz. unfold bootstrap_calloc_size, BITS in *.
  rewrite Z.shiftr_div_pow2 by lia. change (64 - 1) with 63.
  destruct (Z.eqb_spec sz 0) as [->|Hnz]; [vm_compute; reflexivity|].
  rewrite (wrap64_small (sz - 1)) by (unfold BITS; lia).
  destruct (Z.leb_spec sz (2 ^ 63)) as [Hle|Hgt].
  - rewrite Z.div_small by lia. simpl. apply wrap64_small. unfold BITS. lia.
  - assert ((sz - 1) / 2 ^ 63 = 1) as ->; [|f_equal; lia].
    symmetry. apply (Z.div_unique _ _ _ (sz - 1 - 2 ^ 63)); lia.
Qed.

Section BootstrapCallocProperties.
Variable process : Type.
Variable set_errno : Z → process → process.
Variable slow_alloc_zero : Z → process → ptr * process.
Variable umul : Z → Z → Z * bool.

(** X20: [__je_bootstrap_calloc] returns [nullptr] with [ENOMEM] when the
    product overflows.  Otherwise it asks the slow allocator for 1 byte when
    the product [sz] is 0 and for [sz] bytes when [1 <= sz <= 2^63]; for a
    larger product the adjustment adds one, wrapping at [2^64]. *)
Theorem bootstrap_calloc_request (nmemb size sz : Z) (pr : process) :
  0 ≤ sz < 2 ^ BITS →
  (umul size nmemb = (sz, true) →
   __je_bootstrap_calloc process set_errno slow_alloc_zero umul nmemb size pr
   = (NULL, set_errno ENOMEM pr)) ∧
  (umul size nmemb = (sz, false) →
   __je_bootstrap_calloc process set_errno slow_alloc_zero umul nmemb size pr
   = slow_alloc_zero
       (if sz =? 0 then 1 else if sz <=? 2 ^ 63 then sz else wrap64 (sz + 1))
       pr).
Proof.
  intros Hsz. unfold __je_bootstrap_calloc. split; intros ->; [done|].
  by rewrite bootstrap_calloc_size_cases.
Qed.
End BootstrapCallocProperties.

Lemma bootstrap_calloc_request_witness :
  0 ≤ 0 < 2 ^ BITS ∧
  exact_umul 16 0 = (0, false) ∧
  __je_bootstrap_calloc (Z * Z) bump_set_errno bump_alloc exact_umul 0 16 (0x2000, 0)
  = bump_alloc 1 (0x2000, 0).
Proof.
  assert (0 ≤ 0 < 2 ^ BITS) as H1 by (split; concrete).
  assert (exact_umul 16 0 = (0, false)) as H2 by (vm_compute; reflexivity).
  split; [exact H1|]. split; [exact H2|].
  exact (proj2 (bootstrap_calloc_request (Z * Z) bump_set_errno bump_alloc
                  exact_umul 0 16 0 (0x2000, 0) H1) H2).
Defined.
